(** * SSA intermediate representation of the frugal JIT: registers and nodes

    A shallow embedding of [internal/atm/ssa/ir.go]: the packed register
    word [Reg], the phi node, the switch terminator with its successor
    iterator, the binary expression behind [IrCopy], and the call node,
    together with the properties their consumers rely on. *)

From Stdlib Require Import ZArith Lia.
From stdpp Require Import base tactics option list sorting gmap strings pretty.

Local Open Scope Z_scope.

(** ** Panics

    Go code signals a broken invariant with [panic(msg)].  A function that
    can panic returns a [result]: either its value or the panic message. *)

Inductive result (A : Type) : Type :=
  | Ok (a : A)
  | Panic (msg : string).
Arguments Ok {A} a.
Arguments Panic {A} msg.

#[global] Instance result_ret : MRet result := λ A a, Ok a.
#[global] Instance result_bind : MBind result := λ A B f r,
  match r with
  | Ok a => f a
  | Panic msg => Panic msg
  end.

Definition is_panic {A} (r : result A) : Prop :=
  match r with
  | Ok _ => False
  | Panic _ => True
  end.

(** [%d] of [fmt.Sprintf]: the decimal rendering of an integer. *)
Definition fmt_d (n : Z) : string := pretty n.

(** [%s] of [fmt.Sprintf] applied to a value with a [String] method: the
    [fmt] package recovers a panic raised inside [String] and splices a
    diagnostic into the output instead of propagating it. *)
Definition fmt_s (r : result string) : string :=
  match r with
  | Ok s => s
  | Panic msg => "%!s(PANIC=String method: " +:+ msg +:+ ")"
  end.

(** The text of the run-time panic of an index expression [x[i]] out of
    range: the Go runtime prints the index, and the length too unless the
    index is negative. *)
Definition index_out_of_range (i : Z) (len : nat) : string :=
  if i <? 0 then
    "runtime error: index out of range [" +:+ fmt_d i +:+ "]"
  else
    "runtime error: index out of range [" +:+ fmt_d i +:+ "] with length "
      +:+ fmt_d (Z.of_nat len).

(** ** Registers *)

(** [type Reg uint64]: an unsigned 64-bit word. *)
Definition Reg : Type := Z.

Definition uint64 (z : Z) : Z := z mod 2 ^ 64.

Definition _B_ptr : Z := 63.
Definition _B_kind : Z := 59.

Definition _M_ptr : Z := 1.
Definition _M_kind : Z := 0x0f.

Definition _R_ptr : Z := Z.shiftl _M_ptr _B_ptr.
Definition _R_kind : Z := Z.shiftl _M_kind _B_kind.
Definition _R_index : Z := Z.shiftl 1 _B_kind - 1.

Definition _K_max : Z := 7.
Definition _K_arch : Z := 12.
Definition _K_zero : Z := 13.
Definition _K_temp : Z := 14.
Definition _K_norm : Z := 15.

Definition Rz : Reg := Z.lor (Z.shiftl 0 _B_ptr) (Z.shiftl _K_zero _B_kind).
Definition Pn : Reg := Z.lor (Z.shiftl 1 _B_ptr) (Z.shiftl _K_zero _B_kind).

Definition Tr : Reg := Z.lor (Z.shiftl 0 _B_ptr) (Z.shiftl _K_temp _B_kind).
Definition Pr : Reg := Z.lor (Z.shiftl 1 _B_ptr) (Z.shiftl _K_temp _B_kind).

(** The word [mkreg] returns on its non-panicking branch; the constants
    [Rz], [Pn], [Tr] and [Pr] are written with the same expression. *)
Definition reg_bits (ptr kind : Z) : Reg :=
  uint64 (Z.lor (uint64 (Z.shiftl (Z.land ptr _M_ptr) _B_ptr))
                (uint64 (Z.shiftl (Z.land kind _M_kind) _B_kind))).

Definition mkreg (ptr kind : Z) : result Reg :=
  if _K_max <? kind then
    Panic ("invalid register kind: " +:+ fmt_d kind)
  else
    Ok (reg_bits ptr kind).

Definition Reg_Ptr (self : Reg) : bool :=
  negb (Z.land self _R_ptr =? 0).

Definition Reg_Index (self : Reg) : Z :=
  Z.land self _R_index.

Definition Reg_kind (self : Reg) : Z :=
  Z.shiftr (Z.land self _R_kind) _B_kind.

Definition Reg_zero (self : Reg) : Reg :=
  if Reg_Ptr self then Pn else Rz.

Definition Reg_rename (self : Reg) (i : Z) : Reg :=
  Z.lor (Z.land self (Z.lor _R_ptr _R_kind)) (Z.land i _R_index).

Definition Reg_normalize (self : Reg) (i : Z) : Reg :=
  Z.lor (Z.lor (Z.land self _R_ptr) (Z.shiftl _K_norm _B_kind)) (Z.land i _R_index).

(** The four kinds above [_K_max] that the register model reserves. *)
Definition reserved_kind (kind : Z) : bool :=
  (kind =? _K_arch) || (kind =? _K_zero) || (kind =? _K_temp) || (kind =? _K_norm).

Section RegString.
(** The table of physical registers and their names live in the
    architecture-specific part of the package; they are parameters here.
    [ArchRegNames] is a Go map from register to name, whose lookup yields
    the empty string for a missing key. *)
Context {ArchReg : Type}.
Variable ArchRegs : list ArchReg.
Variable ArchRegNames : ArchReg → string.

Definition Reg_String (self : Reg) : result string :=
  let k := Reg_kind self in
  if k =? _K_arch then
    let i := Reg_Index self in
    if Z.of_nat (length ArchRegs) <=? i then
      Panic ("invalid arch-specific register index: " +:+ fmt_d i)
    else
      match ArchRegs !! Z.to_nat i with
      | Some a => Ok ("%" +:+ ArchRegNames a)
      | None => Panic (index_out_of_range i (length ArchRegs))
      end
  else if k =? _K_zero then
    if Reg_Ptr self then Ok "nil" else Ok "$0"
  else if k =? _K_temp then
    if Reg_Ptr self
    then Ok ("%tp" +:+ fmt_d (Reg_Index self))
    else Ok ("%tr" +:+ fmt_d (Reg_Index self))
  else if k =? _K_norm then
    if Reg_Ptr self
    then Ok ("%p" +:+ fmt_d (Reg_Index self))
    else Ok ("%r" +:+ fmt_d (Reg_Index self))
  else
    if Reg_Ptr self
    then Ok ("%p" +:+ fmt_d k +:+ "." +:+ fmt_d (Reg_Index self))
    else Ok ("%r" +:+ fmt_d k +:+ "." +:+ fmt_d (Reg_Index self)).
End RegString.

(** ** Slices and the [sort] package *)

(** [x[i]] for a non-negative index: out of range is a run-time panic. *)
Definition index {A} (x : list A) (i : nat) : result A :=
  match x !! i with
  | Some a => Ok a
  | None => Panic (index_out_of_range (Z.of_nat i) (length x))
  end.

(** [x[i]] for a signed index. *)
Definition indexZ {A} (x : list A) (i : Z) : result A :=
  if i <? 0 then Panic (index_out_of_range i (length x))
  else index x (Z.to_nat i).

(** The line feed, written [\n] in Go. *)
Definition newline : string := String (Ascii.ascii_of_nat 10) EmptyString.

(** [strings.Join]. *)
Definition strings_Join (elems : list string) (sep : string) : string :=
  String.concat sep elems.

(** [sort.Interface]: what [sort.Sort] needs from the data it sorts.
    [Less] and [Swap] receive positions; on a slice they panic when a
    position is out of range. *)
Class Interface (S : Type) : Type := {
  Len : S → nat;
  Less : S → nat → nat → result bool;
  Swap : S → nat → nat → result S;
}.

(** Data that behaves like a slice of elements compared by an integer key:
    while the invariant [wf] holds, [Less] compares the keys found at two
    valid positions and [Swap] exchanges the elements found there. *)
Record SliceLike {S E : Type} `{Interface S}
    (wf : S → Prop) (elems : S → list E) (key : E → Z) : Prop := {
  slice_Len d : wf d → Len d = length (elems d);
  slice_Less d i j x y :
    wf d → elems d !! i = Some x → elems d !! j = Some y →
    Less d i j = Ok (bool_decide (key x < key y));
  slice_Swap d i j x y :
    wf d → elems d !! i = Some x → elems d !! j = Some y →
    ∃ d', Swap d i j = Ok d' ∧ wf d' ∧ elems d' = <[j:=x]> (<[i:=y]> (elems d));
}.

(** Ascending by key, as [sort.Sort] leaves its data: no element is less
    than one before it. *)
Definition ascending {E} (key : E → Z) (l : list E) : Prop :=
  Sorted (λ x y, key x ≤ key y) l.

(** [sort.Sort] belongs to the Go standard library and is specified by its
    documented contract: it returns with the data rearranged into ascending
    order as determined by [Less]; the sort is not guaranteed to be stable,
    so nothing is promised about elements with equal keys. *)
Class GoSort : Type := {
  sort_Sort : ∀ {S : Type} `{Interface S}, S → result S;
  sort_Sort_sorts :
    ∀ (S E : Type) (I : Interface S) (wf : S → Prop) (elems : S → list E) (key : E → Z),
      SliceLike wf elems key →
      ∀ d, wf d →
        ∃ d', sort_Sort d = Ok d' ∧ wf d' ∧ elems d' ≡ₚ elems d ∧ ascending key (elems d');
}.

(** [sort.Slice(x, less)] sorts through the same routine, with the
    caller's closure as [Less] and the slice's own element swap as [Swap].
    The closure reads the slice being sorted. *)
Definition lessSwap {A} (less : list A → nat → nat → result bool) : Interface (list A) := {|
  Len x := length x;
  Less := less;
  Swap x i j :=
    xi ← index x i;
    xj ← index x j;
    Ok (<[j:=xi]> (<[i:=xj]> x));
|}.

Definition sort_Slice `{GoSort} {A} (x : list A) (less : list A → nat → nat → result bool) : result (list A) :=
  sort_Sort (H := lessSwap less) x.

(** The insertion sort of Go's [sort] package.  On a range of up to six
    elements [sort.Sort] and [sort.Slice] run exactly this loop; longer
    ranges go through other passes first, which is why the properties
    below rest on the contract [GoSort] and not on this routine:
<<
    for i := a + 1; i < b; i++ {
        for j := i; j > a && data.Less(j, j-1); j-- { data.Swap(j, j-1) }
    }
>>
    [insert_down] is the inner loop for [a = 0]. *)
Fixpoint insert_down {S} `{Interface S} (data : S) (j : nat) : result S :=
  match j with
  | O => Ok data
  | S j' =>
      lt ← Less data j j';
      if lt : bool then data' ← Swap data j j'; insert_down data' j'
      else Ok data
  end.

Definition insertionSort {S} `{Interface S} (data : S) (b : nat) : result S :=
  foldl (λ acc i, data ← acc; insert_down data i) (Ok data) (seq 1 (b - 1)).

(** [sort.Sort] on a short range: [n := data.Len()], then the insertion
    sort of the whole range. *)
Definition go_sort_Sort {S} `{Interface S} (data : S) : result S :=
  insertionSort data (Len data).

(** ** Pointers and maps

    A Go map is a finite map [gmap].  [range] visits the entries of a map
    in an order the language leaves unspecified: a function that ranges
    over a map takes the visiting order as an argument [order], a
    permutation of [map_to_list] of the map. *)

(** A non-nil [*BasicBlock]: the address of a block.  Two pointers are
    equal when they are the same address, whatever the blocks hold. *)
Definition BlockRef : Type := positive.

(** The address of an IR node, the receiver of its methods. *)
Definition NodeRef : Type := positive.

(** A [*Reg].  [FieldRef n f] is [&n.f], the address of the register field
    [f] of the node at [n] (a path such as [Rx.T] through an owned
    sub-object included); [ElemRef n f i] is [&n.f[i]], element [i] of the
    slice held in field [f], named by the path that reaches it; [VarRef a]
    is the address of a register kept elsewhere.  A slice is a view of a
    backing array, and two slices may view the same one: two [ElemRef]
    paths through different slice fields may then be one address.  The
    nodes here hold the contents of their slices, not their backing
    arrays, so the paths say which element a pointer reaches, not whether
    two of them coincide. *)
Inductive RegRef : Type :=
  | FieldRef (node : NodeRef) (field : string)
  | ElemRef (node : NodeRef) (field : string) (i : nat)
  | VarRef (a : positive).

#[global] Instance RegRef_eq_dec : EqDecision RegRef.
Proof. solve_decision. Defined.

(** Modelled from the spec: [BasicBlock] is declared in another file of the
    package; the code here reads only its integer identifier [Id]. *)
Record BasicBlock : Type := { Id : Z }.

(** Modelled from the spec: [regsliceref], a helper declared in another
    file of the package, returns the address of every element of a register
    slice, in order: [&regs[0]], [&regs[1]], and so on, each written as
    the path through the field that holds the slice. *)
Definition regsliceref (self : NodeRef) (field : string) (regs : list Reg) : list RegRef :=
  imap (λ i _, ElemRef self field i) regs.

(** ** Phi nodes *)

Module _PhiSorter.
Record ty : Type := { k : list Z; v : list RegRef }.

Definition Len (self : ty) : nat := length (k self).

(** [self.k[i], self.k[j] = self.k[j], self.k[i]] and the same on [v]:
    the right-hand sides are read first, then [k[i]] and [k[j]] are
    written.  The slices are shared with the caller, so the exchange is
    seen through every copy of the sorter; here the sorter after the
    exchange is returned. *)
Definition Swap (self : ty) (i j : nat) : result ty :=
  kj ← index (k self) j;
  ki ← index (k self) i;
  let k' := <[j:=ki]> (<[i:=kj]> (k self)) in
  vj ← index (v self) j;
  vi ← index (v self) i;
  let v' := <[j:=vi]> (<[i:=vj]> (v self)) in
  Ok {| k := k'; v := v' |}.

Definition Less (self : ty) (i j : nat) : result bool :=
  ki ← index (k self) i;
  kj ← index (k self) j;
  Ok (bool_decide (ki < kj)).
End _PhiSorter.

#[global] Instance _PhiSorter_Interface : Interface _PhiSorter.ty := {|
  Len := _PhiSorter.Len;
  Less := _PhiSorter.Less;
  Swap := _PhiSorter.Swap;
|}.

Module IrPhi.
Record ty : Type := { R : Reg; V : gmap BlockRef RegRef }.

Section Methods.
Context `{GoSort}.
(** The block store: the block each block pointer refers to. *)
Variable blk : BlockRef → BasicBlock.

(** [order] is the order in which [range self.V] happens to visit the
    entries of the map. *)
Definition Usages (self : ty) (order : list (BlockRef * RegRef)) : result (list RegRef) :=
  let '(k, v) :=
    foldl (λ '(k, v) '(b, r), let v := v ++ [r] in let k := k ++ [Id (blk b)] in (k, v))
          ([], []) order in
  s ← sort_Sort {| _PhiSorter.k := k; _PhiSorter.v := v |};
  Ok (_PhiSorter.v s).
End Methods.

Definition Definations (self : NodeRef) : list RegRef :=
  [FieldRef self "R"].
End IrPhi.

(** ** Switch terminators and their successors *)

(** [int] is a signed 64-bit integer; [i++] wraps around. *)
Definition int_wrap (z : Z) : Z := (z + 2 ^ 63) mod 2 ^ 64 - 2 ^ 63.

Module _SwitchTarget.
Record ty : Type := { i : Z; b : BlockRef }.
End _SwitchTarget.

Module _SwitchSuccessors.
Record ty : Type := { i : Z; t : list _SwitchTarget.ty }.

(** [len(self.t)]. *)
Definition len_t (self : ty) : Z := Z.of_nat (length (t self)).

(** [Next] advances the iterator and reports whether it stands on an
    edge: the advanced iterator comes with the answer. *)
Definition Next (self : ty) : ty * bool :=
  let self := {| i := int_wrap (i self + 1); t := t self |} in
  (self, bool_decide (i self < len_t self)).

(** [nil] is [None]. *)
Definition Block (self : ty) : result (option BlockRef) :=
  if bool_decide (i self >= len_t self) then
    Ok None
  else
    tgt ← indexZ (t self) (i self);
    Ok (Some (_SwitchTarget.b tgt)).

Definition Value (self : ty) : result (Z * bool) :=
  if bool_decide (i self >= len_t self - 1) then
    Ok (0, false)
  else
    tgt ← indexZ (t self) (i self);
    Ok (_SwitchTarget.i tgt, true).
End _SwitchSuccessors.

(** One step of a consumer's loop [for it.Next() { ... it.Value() ...
    it.Block() ... }]: the edge the iterator stands on after [Next]. *)
Record Edge : Type := { edge_value : Z * bool; edge_block : option BlockRef }.

(** The edges a consumer sees by calling [Next] until it answers [false].
    [None] when [fuel] calls to [Next] do not exhaust the iterator. *)
Fixpoint successors_list (fuel : nat) (it : _SwitchSuccessors.ty) : option (result (list Edge)) :=
  match fuel with
  | O => None
  | S fuel =>
      let '(it, more) := _SwitchSuccessors.Next it in
      if more then
        match _SwitchSuccessors.Value it, _SwitchSuccessors.Block it with
        | Ok v, Ok b =>
            match successors_list fuel it with
            | Some (Ok rest) => Some (Ok ({| edge_value := v; edge_block := b |} :: rest))
            | other => other
            end
        | Panic msg, _ | _, Panic msg => Some (Panic msg)
        end
      else Some (Ok [])
  end.

Module IrSwitch.
Record ty : Type := { V : Reg; Ln : BlockRef; Br : gmap Z BlockRef }.

Section Methods.
Context `{GoSort}.
Context {ArchReg : Type}.
Variable ArchRegs : list ArchReg.
Variable ArchRegNames : ArchReg → string.
Variable blk : BlockRef → BasicBlock.

(** The closure handed to [sort.Slice]: [t[i].i < t[j].i]. *)
Definition iter_less (t : list _SwitchTarget.ty) (i j : nat) : result bool :=
  ti ← index t i;
  tj ← index t j;
  Ok (bool_decide (_SwitchTarget.i ti < _SwitchTarget.i tj)).

(** [order] is the order in which [range self.Br] happens to visit the
    entries of the map.  [sort.Slice(t[:n], ...)] sorts the first [n]
    elements of [t] in place and leaves the rest where it is. *)
Definition iter (self : ty) (order : list (Z * BlockRef)) : result _SwitchSuccessors.ty :=
  let n := size (Br self) in
  let t := foldl (λ t '(i, b), t ++ [{| _SwitchTarget.i := i; _SwitchTarget.b := b |}]) [] order in
  let t := t ++ [{| _SwitchTarget.i := 0; _SwitchTarget.b := Ln self |}] in
  sorted ← sort_Slice (take n t) iter_less;
  let t := sorted ++ drop n t in
  Ok {| _SwitchSuccessors.t := t; _SwitchSuccessors.i := -1 |}.

Definition String (self : ty) (order : list (Z * BlockRef)) : result string :=
  let n := size (Br self) in
  if bool_decide (n = 0%nat) then
    Ok ("goto bb_" +:+ fmt_d (Id (blk (Ln self))))
  else
    it ← iter self order;
    let r := foldl (λ r v, r ++ ["  " +:+ fmt_d (_SwitchTarget.i v) +:+ " => bb_"
                                 +:+ fmt_d (Id (blk (_SwitchTarget.b v))) +:+ ","])
                   [] (take n (_SwitchSuccessors.t it)) in
    let r := r ++ ["  _ => bb_" +:+ fmt_d (Id (blk (Ln self))) +:+ ","] in
    Ok ("switch " +:+ fmt_s (Reg_String ArchRegs ArchRegNames (V self)) +:+ " {" +:+ newline
        +:+ strings_Join r newline +:+ newline +:+ "}").

Definition Usages (self : NodeRef) : list RegRef :=
  [FieldRef self "V"].

Definition Successors (self : ty) (order : list (Z * BlockRef)) : result _SwitchSuccessors.ty :=
  iter self order.
End Methods.
End IrSwitch.

(** ** Binary expressions and copies *)

Inductive IrBinaryOp : Type :=
  | IrOpAdd
  | IrOpSub
  | IrOpMul
  | IrOpAnd
  | IrOpOr
  | IrOpXor
  | IrOpShr
  | IrCmpEq
  | IrCmpNe
  | IrCmpLt
  | IrCmpLtu
  | IrCmpGeu.

Module IrBinaryExpr.
Record ty : Type := { R : Reg; X : Reg; Y : Reg; Op : IrBinaryOp }.

Definition Usages (self : NodeRef) : list RegRef :=
  [FieldRef self "X"; FieldRef self "Y"].

Definition Definations (self : NodeRef) : list RegRef :=
  [FieldRef self "R"].

(** [*p] for a register pointer into the node [node] stored at [self];
    [None] when [p] does not point into it. *)
Definition load (self : NodeRef) (node : ty) (p : RegRef) : option Reg :=
  match p with
  | FieldRef n f =>
      if bool_decide (n = self) then
        if bool_decide (f = "R") then Some (R node)
        else if bool_decide (f = "X") then Some (X node)
        else if bool_decide (f = "Y") then Some (Y node)
        else None
      else None
  | _ => None
  end.
End IrBinaryExpr.

Definition IrCopy (r v : Reg) : IrBinaryExpr.ty := {|
  IrBinaryExpr.R := r;
  IrBinaryExpr.X := v;
  IrBinaryExpr.Y := Rz;
  IrBinaryExpr.Op := IrOpAdd;
|}.

(** ** Calls *)

(** Modelled from the spec: the call descriptor of the [hir] package
    carries the call kind (native [CCall], managed [GCall] or interface
    [ICall]; [OtherCall] stands for any other value of the underlying
    integer type) and, for an interface call, the slot number. *)
Inductive CallType : Type :=
  | CCall
  | GCall
  | ICall
  | OtherCall (raw : Z).

#[global] Instance CallType_eq_dec : EqDecision CallType.
Proof. solve_decision. Defined.

Record CallHandle : Type := { Type_ : CallType; Slot : Z }.

Module IrReceiver.
Record ty : Type := { T : Reg; V : Reg }.
End IrReceiver.

Module IrCall.
(** [Rx] is a pointer to the receiver, [None] when it is [nil]. *)
Record ty : Type := {
  Fn : CallHandle;
  Rx : option IrReceiver.ty;
  In : list Reg;
  Out : list Reg;
}.

Section Methods.
Context {ArchReg : Type}.
Variable ArchRegs : list ArchReg.
Variable ArchRegNames : ArchReg → string.
(** [hir.CallHandle.String], declared in the [hir] package. *)
Variable CallHandle_String : CallHandle → string.

Definition String (self : ty) : result string :=
  if bool_decide (bool_decide (Rx self = None) = bool_decide (Type_ (Fn self) = ICall)) then
    Panic "invalid receiver value"
  else
    kind ← match Type_ (Fn self) with
            | CCall => Ok "ccall"
            | GCall => Ok "gcall"
            | ICall => Ok "icall"
            | OtherCall _ => Panic "invalid call type"
            end;
    let desc :=
      if bool_decide (Type_ (Fn self) ≠ ICall) then CallHandle_String (Fn self)
      else "#" +:+ fmt_d (Slot (Fn self)) in
    let recv :=
      match Rx self with
      | Some rx =>
          ", {" +:+ fmt_s (Reg_String ArchRegs ArchRegNames (IrReceiver.T rx)) +:+ ", "
                +:+ fmt_s (Reg_String ArchRegs ArchRegNames (IrReceiver.V rx)) +:+ "}"
      | None => ""
      end in
    in_ ← mapM (Reg_String ArchRegs ArchRegNames) (In self);
    out ← mapM (Reg_String ArchRegs ArchRegNames) (Out self);
    if bool_decide (length out = 0%nat) then
      Ok (kind +:+ " " +:+ desc +:+ recv +:+ ", {" +:+ strings_Join in_ ", " +:+ "}")
    else
      Ok (strings_Join out ", " +:+ " = " +:+ kind +:+ " " +:+ desc +:+ recv
            +:+ ", {" +:+ strings_Join in_ ", " +:+ "}").
End Methods.

Definition Usages (self : NodeRef) (node : ty) : list RegRef :=
  let in_ := regsliceref self "In" (In node) in
  match Rx node with
  | None => in_
  | Some _ => [FieldRef self "Rx.T"; FieldRef self "Rx.V"] ++ in_
  end.

Definition Definations (self : NodeRef) (node : ty) : list RegRef :=
  regsliceref self "Out" (Out node).
End IrCall.

(** * Properties *)

(** ** Register words *)

(** The three fields of the word do not overlap. *)
Lemma mask_index_ptr : Z.land _R_index _R_ptr = 0.
Proof. reflexivity. Qed.

Lemma mask_index_kind : Z.land _R_index _R_kind = 0.
Proof. reflexivity. Qed.

Lemma mask_index_index : Z.land _R_index _R_index = _R_index.
Proof. reflexivity. Qed.

Lemma mask_index_high : Z.land _R_index (Z.lor _R_ptr _R_kind) = 0.
Proof. reflexivity. Qed.

Lemma mask_high_ptr : Z.land (Z.lor _R_ptr _R_kind) _R_ptr = _R_ptr.
Proof. reflexivity. Qed.

Lemma mask_high_kind : Z.land (Z.lor _R_ptr _R_kind) _R_kind = _R_kind.
Proof. reflexivity. Qed.

Lemma mask_high_index : Z.land (Z.lor _R_ptr _R_kind) _R_index = 0.
Proof. reflexivity. Qed.

Lemma mask_high_high :
  Z.land (Z.lor _R_ptr _R_kind) (Z.lor _R_ptr _R_kind) = Z.lor _R_ptr _R_kind.
Proof. reflexivity. Qed.

Lemma mask_ptr_ptr : Z.land _R_ptr _R_ptr = _R_ptr.
Proof. reflexivity. Qed.

Lemma mask_ptr_kind : Z.land _R_ptr _R_kind = 0.
Proof. reflexivity. Qed.

Lemma mask_ptr_index : Z.land _R_ptr _R_index = 0.
Proof. reflexivity. Qed.

Lemma mask_norm_ptr : Z.land (Z.shiftl _K_norm _B_kind) _R_ptr = 0.
Proof. reflexivity. Qed.

Lemma mask_norm_kind : Z.land (Z.shiftl _K_norm _B_kind) _R_kind = Z.shiftl _K_norm _B_kind.
Proof. reflexivity. Qed.

Lemma mask_norm_index : Z.land (Z.shiftl _K_norm _B_kind) _R_index = 0.
Proof. reflexivity. Qed.

Create Rewrite HintDb regmask.
#[global] Hint Rewrite
  mask_index_ptr mask_index_kind mask_index_index mask_index_high
  mask_high_ptr mask_high_kind mask_high_index mask_high_high
  mask_ptr_ptr mask_ptr_kind mask_ptr_index
  mask_norm_ptr mask_norm_kind mask_norm_index
  Z.land_0_r Z.land_0_l Z.lor_0_r Z.lor_0_l : regmask.

(** Push a field mask through the [|] of a register expression and
    evaluate the masks that meet. *)
Ltac mask_fields :=
  repeat rewrite Z.land_lor_distr_l;
  repeat rewrite <- Z.land_assoc;
  autorewrite with regmask.

Lemma Reg_rename_Ptr (r : Reg) (i : Z) : Reg_Ptr (Reg_rename r i) = Reg_Ptr r.
Proof. unfold Reg_Ptr, Reg_rename. mask_fields. reflexivity. Qed.

Lemma Reg_rename_kind (r : Reg) (i : Z) : Reg_kind (Reg_rename r i) = Reg_kind r.
Proof. unfold Reg_kind, Reg_rename. mask_fields. reflexivity. Qed.

Lemma index_field_fits (i : Z) : 0 ≤ i ≤ _R_index → Z.land i _R_index = i.
Proof.
  intros Hi. change _R_index with (Z.ones 59) in *.
  rewrite Z.land_ones by lia. apply Z.mod_small.
  rewrite Z.ones_equiv in Hi. lia.
Qed.

Lemma Reg_rename_Index (r : Reg) (i : Z) :
  0 ≤ i ≤ _R_index → Reg_Index (Reg_rename r i) = i.
Proof.
  intros Hi. unfold Reg_Index, Reg_rename. mask_fields. by apply index_field_fits.
Qed.

Lemma Reg_normalize_Ptr (r : Reg) (i : Z) : Reg_Ptr (Reg_normalize r i) = Reg_Ptr r.
Proof. unfold Reg_Ptr, Reg_normalize. mask_fields. reflexivity. Qed.

Lemma Reg_normalize_kind (r : Reg) (i : Z) : Reg_kind (Reg_normalize r i) = _K_norm.
Proof. unfold Reg_kind, Reg_normalize. mask_fields. reflexivity. Qed.

Lemma Reg_rename_rename (r : Reg) (i : Z) :
  Reg_rename (Reg_rename r i) i = Reg_rename r i.
Proof. unfold Reg_rename. mask_fields. reflexivity. Qed.

Example Rz_word : Rz = 0x6800000000000000.
Proof. reflexivity. Qed.

Example Pn_word : Pn = 0xe800000000000000.
Proof. reflexivity. Qed.

Example mkreg_3 : mkreg 1 3 = Ok 0x9800000000000000.
Proof. reflexivity. Qed.

Example mkreg_13 : mkreg 0 13 = Panic "invalid register kind: 13".
Proof. vm_compute. reflexivity. Qed.

Example Reg_String_norm : Reg_String (@nil unit) (λ _, "") (Reg_normalize Pn 42) = Ok "%p42".
Proof. vm_compute. reflexivity. Qed.

Lemma land_ptr_bit (r : Reg) :
  Z.land r _R_ptr = if Reg_Ptr r then _R_ptr else 0.
Proof.
  unfold Reg_Ptr. destruct (Z.eqb_spec (Z.land r _R_ptr) 0) as [-> | Hne]; [done |].
  simpl negb. cbv iota. apply Z.bits_inj'. intros n Hn.
  rewrite Z.land_spec. change _R_ptr with (2 ^ 63) in *.
  rewrite Z.pow2_bits_eqb by lia.
  destruct (Z.eqb_spec 63 n) as [<- | Hn63]; [| by rewrite andb_false_r].
  rewrite andb_true_r. destruct (Z.testbit r 63) eqn:Hbit; [done |].
  exfalso. apply Hne. apply Z.bits_inj'. intros m Hm.
  rewrite Z.land_spec, Z.pow2_bits_eqb, Z.bits_0 by lia.
  destruct (Z.eqb_spec 63 m) as [<- | ?]; [by rewrite Hbit | by rewrite andb_false_r].
Qed.

(** ** Words stay within 64 bits *)

Lemma land_mask_le (a m : Z) : 0 ≤ m → 0 ≤ Z.land a m ≤ m.
Proof.
  intros Hm. split; [apply Z.land_nonneg; by right |].
  assert (Z.ldiff (Z.land a m) m = 0) as Hsub.
  { apply Z.bits_inj'. intros n Hn.
    rewrite Z.ldiff_spec, Z.land_spec, Z.bits_0.
    by destruct (Z.testbit a n), (Z.testbit m n). }
  pose proof (Z.sub_nocarry_ldiff m (Z.land a m) Hsub) as Hdiff.
  assert (0 ≤ Z.ldiff m (Z.land a m)) by (apply Z.ldiff_nonneg; by left).
  lia.
Qed.

Lemma lor_word (a b : Z) :
  0 ≤ a < 2 ^ 64 → 0 ≤ b < 2 ^ 64 → 0 ≤ Z.lor a b < 2 ^ 64.
Proof.
  intros [Ha0 Ha] [Hb0 Hb]. split; [by apply Z.lor_nonneg |].
  destruct (Z.eq_dec (Z.lor a b) 0) as [-> | Hne]; [lia |].
  assert (0 < Z.lor a b) by (pose proof (proj2 (Z.lor_nonneg a b) (conj Ha0 Hb0)); lia).
  apply Z.log2_lt_pow2; [done |]. rewrite Z.log2_lor by done.
  apply Z.max_lub_lt.
  - destruct (Z.eq_dec a 0) as [-> | ?]; [done |]. apply Z.log2_lt_pow2; lia.
  - destruct (Z.eq_dec b 0) as [-> | ?]; [done |]. apply Z.log2_lt_pow2; lia.
Qed.

(** [rename] and [normalize] return 64-bit words, whatever they are given:
    no wrap-around is lost by computing them over the integers. *)
Lemma Reg_rename_word (r : Reg) (i : Z) : 0 ≤ Reg_rename r i < 2 ^ 64.
Proof.
  unfold Reg_rename. apply lor_word.
  - pose proof (land_mask_le r (Z.lor _R_ptr _R_kind) ltac:(done)) as [? Hle].
    split; [done |]. eapply Z.le_lt_trans; [exact Hle | done].
  - pose proof (land_mask_le i _R_index ltac:(done)) as [? Hle].
    split; [done |]. eapply Z.le_lt_trans; [exact Hle | done].
Qed.

Lemma Reg_normalize_word (r : Reg) (i : Z) : 0 ≤ Reg_normalize r i < 2 ^ 64.
Proof.
  unfold Reg_normalize. apply lor_word; [apply lor_word |].
  - pose proof (land_mask_le r _R_ptr ltac:(done)) as [? Hle].
    split; [done |]. eapply Z.le_lt_trans; [exact Hle | done].
  - done.
  - pose proof (land_mask_le i _R_index ltac:(done)) as [? Hle].
    split; [done |]. eapply Z.le_lt_trans; [exact Hle | done].
Qed.

Lemma reg_bits_word (ptr kind : Z) : 0 ≤ reg_bits ptr kind < 2 ^ 64.
Proof. unfold reg_bits, uint64. apply Z.mod_pos_bound. done. Qed.

(** [Index] fits an [int] and [kind] fits a [uint8]: the conversions in
    the two accessors lose nothing. *)
Lemma Reg_Index_range (r : Reg) : 0 ≤ Reg_Index r ≤ _R_index.
Proof. unfold Reg_Index. by apply land_mask_le. Qed.

Lemma Reg_kind_range (r : Reg) : 0 ≤ Reg_kind r ≤ _M_kind.
Proof.
  unfold Reg_kind.
  pose proof (land_mask_le r _R_kind ltac:(done)) as [Hge Hle].
  rewrite Z.shiftr_div_pow2 by done. split.
  - by apply Z.div_pos.
  - change _M_kind with (_R_kind / 2 ^ _B_kind). by apply Z.div_le_mono.
Qed.

(** ** Building and decoding registers *)

(** The kinds a register may carry: a generic class or a reserved kind. *)
Definition valid_kind (kind : Z) : Prop :=
  0 ≤ kind ≤ _K_max ∨ reserved_kind kind = true.

Lemma valid_kind_cases (kind : Z) :
  valid_kind kind →
  kind = 0 ∨ kind = 1 ∨ kind = 2 ∨ kind = 3 ∨ kind = 4 ∨ kind = 5 ∨ kind = 6 ∨ kind = 7
  ∨ kind = _K_arch ∨ kind = _K_zero ∨ kind = _K_temp ∨ kind = _K_norm.
Proof.
  unfold valid_kind, reserved_kind, _K_max, _K_arch, _K_zero, _K_temp, _K_norm.
  intros [Hk | Hk]; [lia |].
  rewrite !orb_true_iff, !Z.eqb_eq in Hk. lia.
Qed.

Lemma land_low_bit (ptr : Z) : Z.land ptr _M_ptr = if Z.odd ptr then 1 else 0.
Proof.
  change _M_ptr with (Z.ones 1). rewrite Z.land_ones by lia.
  change (2 ^ 1) with 2. rewrite Zmod_odd. reflexivity.
Qed.

Lemma reg_bits_fields (ptr kind : Z) :
  0 ≤ kind ≤ _K_max →
  Reg_Ptr (reg_bits ptr kind) = Z.odd ptr
  ∧ Reg_kind (reg_bits ptr kind) = kind
  ∧ Reg_Index (reg_bits ptr kind) = 0.
Proof.
  unfold _K_max. intros Hk. unfold reg_bits. rewrite land_low_bit.
  assert (kind = 0 ∨ kind = 1 ∨ kind = 2 ∨ kind = 3 ∨ kind = 4 ∨ kind = 5
          ∨ kind = 6 ∨ kind = 7) as Hcases by lia.
  destruct Hcases as [-> | [-> | [-> | [-> | [-> | [-> | [-> | ->]]]]]]];
    destruct (Z.odd ptr); repeat split; reflexivity.
Qed.

Lemma mkreg_generic (ptr kind : Z) :
  kind ≤ _K_max → mkreg ptr kind = Ok (reg_bits ptr kind).
Proof. intros Hk. unfold mkreg. by rewrite (proj2 (Z.ltb_ge _ _) Hk). Qed.

Lemma mkreg_invalid (ptr kind : Z) :
  _K_max < kind → mkreg ptr kind = Panic ("invalid register kind: " +:+ fmt_d kind).
Proof. intros Hk. unfold mkreg. by rewrite (proj2 (Z.ltb_lt _ _) Hk). Qed.

(** C1, as amended: [mkreg] has no exception for the reserved kinds.  It
    panics, with the kind in the message, whenever the kind exceeds
    [_K_max]: for the four reserved kinds as for the kinds 8 to 11 between
    [_K_max] and [_K_arch].  It panics on no other kind: for a kind from 0
    to [_K_max] it returns a register that decodes to that kind, to the
    lowest bit of [ptr] as pointer flag and to index 0. *)
Theorem mkreg_rejects_above_max (ptr kind : Z) :
  (_K_max < kind → mkreg ptr kind = Panic ("invalid register kind: " +:+ fmt_d kind))
  ∧ (is_panic (mkreg ptr kind) ↔ _K_max < kind)
  ∧ (_K_max < kind < _K_arch → is_panic (mkreg ptr kind))
  ∧ (reserved_kind kind = true → is_panic (mkreg ptr kind))
  ∧ (0 ≤ kind ≤ _K_max →
     ∃ w, mkreg ptr kind = Ok w
          ∧ Reg_Ptr w = Z.odd ptr ∧ Reg_kind w = kind ∧ Reg_Index w = 0).
Proof.
  pose proof (mkreg_invalid ptr kind) as Hgt.
  pose proof (mkreg_generic ptr kind) as Hle.
  assert (Hiff : is_panic (mkreg ptr kind) ↔ _K_max < kind).
  { split.
    - intros Hp. destruct (Z.lt_ge_cases _K_max kind) as [? | Hk]; [done |].
      rewrite Hle in Hp by done. destruct Hp.
    - intros Hk. rewrite Hgt by done. exact I. }
  split; [exact Hgt |]. split; [exact Hiff |]. split; [| split].
  - intros [Hk _]. by apply Hiff.
  - intros Hk. apply Hiff. unfold reserved_kind in Hk.
    repeat (apply orb_true_iff in Hk as [Hk | Hk]);
      apply Z.eqb_eq in Hk as ->; reflexivity.
  - intros Hk. exists (reg_bits ptr kind).
    split; [apply Hle; lia | by apply reg_bits_fields].
Qed.

(** C1, the claim's exception refuted: the zero kind is one of the four
    reserved kinds, and [mkreg] panics on it all the same. *)
Lemma mkreg_reserved_kind_panics :
  ¬ (reserved_kind _K_zero = true → ¬ is_panic (mkreg 0 _K_zero)).
Proof. intros Hclaim. apply Hclaim; [reflexivity | exact I]. Qed.

(** C5: the word that holds pointer flag [p], a valid kind [k] and an
    index [i] of the 59-bit field decodes back to the three of them through
    [Ptr], [kind] and [Index].  The word is the one the code builds: by
    [mkreg] for a generic kind, as the constants [Rz], [Pn], [Tr] and [Pr]
    for the zero and temporary kinds, by [normalize] for the normalized
    kind, each with the index set by [rename]. *)
Theorem Reg_round_trip (p k i : Z) :
  p = 0 ∨ p = 1 →
  valid_kind k →
  0 ≤ i ≤ _R_index →
  let r := Reg_rename (reg_bits p k) i in
  (Reg_Ptr r = bool_decide (p = 1) ∧ Reg_kind r = k ∧ Reg_Index r = i)
  ∧ (k ≤ _K_max → mkreg p k = Ok (reg_bits p k))
  ∧ (k = _K_zero → reg_bits p k = if bool_decide (p = 1) then Pn else Rz)
  ∧ (k = _K_temp → reg_bits p k = if bool_decide (p = 1) then Pr else Tr)
  ∧ (k = _K_norm → ∀ r0, Reg_Ptr r0 = bool_decide (p = 1) → Reg_normalize r0 i = r).
Proof.
  intros Hp Hk Hi r. subst r.
  rewrite Reg_rename_Ptr, Reg_rename_kind, Reg_rename_Index by done.
  apply valid_kind_cases in Hk.
  split; [| split; [| split; [| split]]].
  - destruct Hk as [-> | [-> | [-> | [-> | [-> | [-> | [-> | [-> | [-> | [-> | [-> | ->]]]]]]]]]]];
      destruct Hp as [-> | ->]; repeat split; reflexivity.
  - apply mkreg_generic.
  - intros ->. by destruct Hp as [-> | ->].
  - intros ->. by destruct Hp as [-> | ->].
  - intros -> r0 Hr0. unfold Reg_normalize, Reg_rename.
    rewrite land_ptr_bit, Hr0. by destruct Hp as [-> | ->].
Qed.

(** The statement of [Reg_round_trip] at the temporary pointer register
    with index 42. *)
Lemma Reg_round_trip_witness :
  let r := Reg_rename (reg_bits 1 _K_temp) 42 in
  Reg_Ptr r = true ∧ Reg_kind r = _K_temp ∧ Reg_Index r = 42.
Proof.
  refine (proj1 (Reg_round_trip 1 _K_temp 42 _ _ _)).
  - by right.
  - by right.
  - by vm_compute.
Defined.

(** C6: renaming twice to the same index is renaming once; normalizing
    yields the SSA-normalized kind whatever the kind was, and keeps the
    pointer flag.  This holds for every index, also one too wide for the
    index field. *)
Theorem Reg_rename_normalize (r : Reg) (i : Z) :
  Reg_rename (Reg_rename r i) i = Reg_rename r i
  ∧ Reg_kind (Reg_normalize r i) = _K_norm
  ∧ Reg_Ptr (Reg_normalize r i) = Reg_Ptr r.
Proof.
  split; [apply Reg_rename_rename |].
  split; [apply Reg_normalize_kind | apply Reg_normalize_Ptr].
Qed.

(** C7: [zero] maps the two zero registers to themselves, every
    non-pointer register to [Rz] and every pointer register to [Pn]. *)
Theorem Reg_zero_mapping :
  Reg_zero Rz = Rz
  ∧ Reg_zero Pn = Pn
  ∧ (∀ r : Reg, Reg_Ptr r = false → Reg_zero r = Rz)
  ∧ (∀ r : Reg, Reg_Ptr r = true → Reg_zero r = Pn).
Proof.
  repeat split; try reflexivity; intros r Hr; unfold Reg_zero; by rewrite Hr.
Qed.

(** C9: a zero-kind register renders without its index.  [rename]
    writes the index, cut to the 59 bits of the field, and keeps the zero
    kind: the renamed [Rz] and [Pn] are other words than [Rz] and [Pn]
    unless that index is 0.  Whatever the index, the renamed [Rz] prints
    as [$0] and the renamed [Pn] as [nil], as [Rz] and [Pn] do. *)
Theorem Reg_String_zero_kind {ArchReg : Type}
    (ArchRegs : list ArchReg) (ArchRegNames : ArchReg → string) (i : Z) :
  Reg_kind (Reg_rename Rz i) = _K_zero
  ∧ Reg_kind (Reg_rename Pn i) = _K_zero
  ∧ Reg_Index (Reg_rename Rz i) = i mod 2 ^ 59
  ∧ Reg_Index (Reg_rename Pn i) = i mod 2 ^ 59
  ∧ (Reg_rename Rz i = Rz ↔ i mod 2 ^ 59 = 0)
  ∧ (Reg_rename Pn i = Pn ↔ i mod 2 ^ 59 = 0)
  ∧ Reg_String ArchRegs ArchRegNames (Reg_rename Rz i) = Ok "$0"
  ∧ Reg_String ArchRegs ArchRegNames (Reg_rename Pn i) = Ok "nil"
  ∧ Reg_String ArchRegs ArchRegNames Rz = Ok "$0"
  ∧ Reg_String ArchRegs ArchRegNames Pn = Ok "nil".
Proof.
  assert (∀ z, Z.land z _R_index = z mod 2 ^ 59) as Hmask.
  { intros z. change _R_index with (Z.ones 59). by rewrite Z.land_ones. }
  assert (∀ r, Reg_Index (Reg_rename r i) = i mod 2 ^ 59) as Hindex.
  { intros r. unfold Reg_Index, Reg_rename. mask_fields. apply Hmask. }
  assert (∀ r, Reg_Index r = 0 → Z.land r (Z.lor _R_ptr _R_kind) = r →
               Reg_rename r i = r ↔ i mod 2 ^ 59 = 0) as Hsame.
  { intros r Hr0 Hr. split.
    - intros Heq. rewrite <- (Hindex r), Heq. exact Hr0.
    - intros Hi. unfold Reg_rename. rewrite Hmask, Hi, Z.lor_0_r. exact Hr. }
  split; [by rewrite Reg_rename_kind |]. split; [by rewrite Reg_rename_kind |].
  split; [apply Hindex |]. split; [apply Hindex |].
  split; [by apply Hsame |]. split; [by apply Hsame |].
  unfold Reg_String.
  rewrite !Reg_rename_kind, !Reg_rename_Ptr.
  repeat split; reflexivity.
Qed.

Example Reg_rename_zero_nonzero_index : Reg_Index (Reg_rename Rz 7) = 7 ∧ Reg_rename Rz 7 ≠ Rz.
Proof. split; [reflexivity | discriminate]. Qed.

(** ** The insertion sort meets the contract of [sort.Sort] *)

Section InsertionSort.
Context {S E : Type} `{Interface S}.
Context (wf : S → Prop) (elems : S → list E) (key : E → Z).
Hypothesis slice_like : SliceLike wf elems key.

Local Abbreviation le_key := (λ x y : E, key x ≤ key y).

(** The inner loop sinks the element at position [j] into the sorted
    prefix before it.  [L] is that prefix, [x] the element, [R] the part
    of the range already passed over, [T] the untouched rest. *)
Lemma insert_down_sorts (j : nat) (d : S) (L : list E) (x : E) (R T : list E) :
  wf d →
  elems d = L ++ x :: R ++ T →
  length L = j →
  StronglySorted le_key L →
  StronglySorted le_key R →
  Forall (λ y, key x < key y) R →
  (∀ a b, a ∈ L → b ∈ R → key a ≤ key b) →
  ∃ d' M,
    insert_down d j = Ok d' ∧ wf d' ∧ elems d' = M ++ T
    ∧ M ≡ₚ L ++ x :: R ∧ StronglySorted le_key M.
Proof.
  revert d L R. induction j as [| j IH]; intros d L R Hwf Hd Hlen HL HR HxR HLR.
  - apply nil_length_inv in Hlen as ->. exists d, (x :: R). simpl.
    repeat split; try done.
    apply SSorted_cons; [done |].
    eapply Forall_impl; [exact HxR | simpl; lia].
  - destruct (rev_ind (λ l, l = [] ∨ ∃ l' y, l = l' ++ [y]) ltac:(by left)
                ltac:(intros y l' _; right; by exists l', y) L) as [-> | (L' & y & ->)];
      [done |].
    rewrite length_app in Hlen. simpl in Hlen.
    assert (length L' = j) as HlenL' by lia.
    rewrite <- app_assoc in Hd. simpl in Hd.
    assert (elems d !! Datatypes.S j = Some x) as Hx.
    { rewrite Hd. rewrite lookup_app_r by lia.
      by replace (Datatypes.S j - length L')%nat with 1%nat by lia. }
    assert (elems d !! j = Some y) as Hy.
    { rewrite Hd. by apply list_lookup_middle. }
    simpl. rewrite (slice_Less _ _ _ slice_like d _ _ x y Hwf Hx Hy). simpl.
    apply StronglySorted_app in HL as (HL'y & HL' & _).
    case_bool_decide as Hlt.
    + destruct (slice_Swap _ _ _ slice_like d _ _ x y Hwf Hx Hy)
        as (d1 & -> & Hwf1 & Hd1). simpl.
      assert (elems d1 = L' ++ x :: (y :: R) ++ T) as Hd1'.
      { rewrite Hd1, Hd.
        rewrite (insert_app_r_alt _ _ (Datatypes.S j)) by lia.
        replace (Datatypes.S j - length L')%nat with 1%nat by lia. simpl.
        rewrite insert_app_r_alt by lia.
        by replace (j - length L')%nat with 0%nat by lia. }
      destruct (IH d1 L' (y :: R) Hwf1 Hd1' HlenL' HL') as (d' & M & Hrun & Hwf' & Hd' & HM & Hsorted).
      * apply SSorted_cons; [done |].
        apply Forall_forall. intros b Hb. apply HLR; [| done].
        apply elem_of_app. right. by left.
      * by apply Forall_cons.
      * intros a b Ha Hb. apply elem_of_cons in Hb as [-> | Hb].
        -- apply HL'y; [done | by left].
        -- apply HLR; [| done]. apply elem_of_app. by left.
      * exists d', M. repeat split; try done.
        rewrite HM, <- app_assoc. simpl.
        apply Permutation_app_head, perm_swap.
    + exists d, ((L' ++ [y]) ++ x :: R). rewrite <- !app_assoc. simpl.
      repeat split; try done.
      apply (StronglySorted_app _ L' (y :: x :: R)).
      split; [| split; [done |]].
      * intros a b Ha Hb.
        assert (key a ≤ key y) by (apply HL'y; [done | by left]).
        apply elem_of_cons in Hb as [-> | Hb]; [done |].
        apply elem_of_cons in Hb as [-> | Hb]; [lia |].
        apply HLR; [| done]. apply elem_of_app. by left.
      * apply SSorted_cons.
        -- apply SSorted_cons; [done |].
           eapply Forall_impl; [exact HxR | simpl; lia].
        -- apply Forall_cons. split; [lia |].
           apply Forall_forall. intros b Hb. apply HLR; [| done].
           apply elem_of_app. right. by left.
Qed.

(** The outer loop, started at position [i] with the first [i] elements
    in order, leaves the first [i + n] elements in order. *)
Lemma insertion_loop_sorts (n i : nat) (d : S) :
  wf d →
  (i + n)%nat = length (elems d) →
  StronglySorted le_key (take i (elems d)) →
  ∃ d',
    foldl (λ acc i, data ← acc; insert_down data i) (Ok d) (seq i n) = Ok d'
    ∧ wf d' ∧ elems d' ≡ₚ elems d
    ∧ StronglySorted le_key (take (i + n) (elems d')).
Proof.
  revert i d. induction n as [| n IH]; intros i d Hwf Hlen Hsorted.
  - exists d. rewrite Nat.add_0_r. by repeat split.
  - destruct (lookup_lt_is_Some_2 (elems d) i) as [x Hx]; [lia |].
    destruct (insert_down_sorts i d (take i (elems d)) x [] (drop (Datatypes.S i) (elems d)))
      as (d1 & M & Hrun & Hwf1 & Hd1 & HM & HMsorted); try done.
    { simpl. by rewrite take_drop_middle. }
    { rewrite length_take. lia. }
    { apply SSorted_nil. }
    { intros a b _ Hb. by apply elem_of_nil in Hb. }
    assert (length M = Datatypes.S i) as HlenM.
    { rewrite HM, length_app, length_take. simpl. lia. }
    assert (elems d1 ≡ₚ elems d) as Hperm1.
    { rewrite Hd1, HM, <- app_assoc. simpl. by rewrite take_drop_middle. }
    destruct (IH (Datatypes.S i) d1) as (d' & Hrun' & Hwf' & Hperm & Hsorted'); try done.
    { rewrite (Permutation_length Hperm1). lia. }
    { by rewrite Hd1, take_app_length'. }
    exists d'. simpl. change (d ≫= λ data, insert_down data i) with (insert_down d i).
    rewrite Hrun. repeat split; try done.
    + by rewrite Hperm.
    + by replace (i + Datatypes.S n)%nat with (Datatypes.S i + n)%nat by lia.
Qed.

Lemma go_sort_Sort_sorts (d : S) :
  wf d →
  ∃ d', go_sort_Sort d = Ok d' ∧ wf d' ∧ elems d' ≡ₚ elems d ∧ ascending key (elems d').
Proof.
  intros Hwf. unfold go_sort_Sort, insertionSort.
  rewrite (slice_Len _ _ _ slice_like d Hwf).
  destruct (elems d) as [| x l] eqn:Hd.
  - exists d. rewrite Hd. repeat split; try done. apply Sorted_nil.
  - destruct (insertion_loop_sorts (length l) 1 d) as (d' & Hrun & Hwf' & Hperm & Hsorted);
      try done.
    { by rewrite Hd. }
    { rewrite Hd. simpl. rewrite take_0. apply SSorted_cons; [apply SSorted_nil | done]. }
    exists d'. simpl length. rewrite Nat.sub_1_r. simpl Nat.pred.
    rewrite Hrun, <- Hd. repeat split; try done.
    apply StronglySorted_Sorted.
    rewrite take_ge in Hsorted; [done |].
    rewrite (Permutation_length Hperm), Hd. simpl. lia.
Qed.
End InsertionSort.

(** The contract of [sort.Sort] is met by the insertion sort above. *)
Definition insertion_GoSort : GoSort := {|
  sort_Sort S I d := go_sort_Sort d;
  sort_Sort_sorts S E I wf elems key slice_like d Hwf :=
    go_sort_Sort_sorts wf elems key slice_like d Hwf;
|}.

(** ** The data handed to the sort behaves like a slice *)

Lemma index_lookup {A} (x : list A) (i : nat) (a : A) : x !! i = Some a → index x i = Ok a.
Proof. unfold index. by intros ->. Qed.

(** The two parallel slices of a [_PhiSorter], read as one slice of
    pairs: [Swap] keeps every register with its block identifier. *)
Lemma _PhiSorter_slice_like :
  SliceLike (λ d, length (_PhiSorter.k d) = length (_PhiSorter.v d))
            (λ d, zip (_PhiSorter.k d) (_PhiSorter.v d)) fst.
Proof.
  split.
  - intros [k v] Hwf. simpl in *. rewrite length_zip_with. unfold _PhiSorter.Len. simpl. lia.
  - intros [k v] i j [ki vi] [kj vj] _ Hi Hj. simpl in *.
    apply lookup_zip_with_Some in Hi as (? & ? & [= <- <-] & Hki & _).
    apply lookup_zip_with_Some in Hj as (? & ? & [= <- <-] & Hkj & _).
    unfold _PhiSorter.Less. simpl.
    by rewrite (index_lookup _ _ _ Hki), (index_lookup _ _ _ Hkj).
  - intros [k v] i j [ki vi] [kj vj] Hwf Hi Hj. simpl in *.
    apply lookup_zip_with_Some in Hi as (? & ? & [= <- <-] & Hki & Hvi).
    apply lookup_zip_with_Some in Hj as (? & ? & [= <- <-] & Hkj & Hvj).
    eexists. unfold _PhiSorter.Swap. simpl.
    rewrite (index_lookup _ _ _ Hki), (index_lookup _ _ _ Hkj),
      (index_lookup _ _ _ Hvi), (index_lookup _ _ _ Hvj). simpl.
    split; [reflexivity |]. simpl. split.
    + by rewrite !length_insert.
    + by rewrite <- !insert_zip_with.
Qed.

(** A slice sorted through [sort.Slice] with a closure that compares
    the keys of the elements at two positions. *)
Lemma lessSwap_slice_like {A} (key : A → Z) (less : list A → nat → nat → result bool) :
  (∀ x i j, less x i j = (xi ← index x i; xj ← index x j; Ok (bool_decide (key xi < key xj)))) →
  SliceLike (H := lessSwap less) (λ _, True) (λ x, x) key.
Proof.
  intros Hless. split.
  - done.
  - intros x i j a b _ Hi Hj. simpl. rewrite Hless.
    by rewrite (index_lookup _ _ _ Hi), (index_lookup _ _ _ Hj).
  - intros x i j a b _ Hi Hj. eexists. simpl.
    rewrite (index_lookup _ _ _ Hi), (index_lookup _ _ _ Hj). simpl.
    by repeat split.
Qed.

(** An ascending list whose keys are pairwise distinct is the only
    ascending arrangement of its elements: whichever algorithm sorts them,
    and in whichever order they arrive, the outcome is the same. *)
Lemma ascending_unique {E} (key : E → Z) (l1 l2 : list E) :
  NoDup (key <$> l1) →
  ascending key l1 → ascending key l2 → l1 ≡ₚ l2 → l1 = l2.
Proof.
  intros Hnodup H1 H2 Hperm.
  assert (Transitive (λ x y : E, key x ≤ key y)) by (intros ???; lia).
  apply (Sorted_unique_strong (λ x y, key x ≤ key y)); try done.
  intros x1 x2 Hx1 Hx2 Hle Hge.
  rewrite <- Hperm in Hx2.
  apply list_elem_of_lookup in Hx1 as [i1 Hi1].
  apply list_elem_of_lookup in Hx2 as [i2 Hi2].
  assert (i1 = i2) as ->; [| congruence].
  eapply NoDup_lookup; [exact Hnodup | |].
  - rewrite list_lookup_fmap, Hi1. reflexivity.
  - rewrite list_lookup_fmap, Hi2. simpl. f_equal. lia.
Qed.

Lemma ascending_keys {E} (key : E → Z) (l : list E) :
  ascending key l → Sorted Z.le (key <$> l).
Proof.
  unfold ascending. induction 1 as [| x l _ IH Hhd]; simpl; [apply Sorted_nil |].
  apply Sorted_cons; [done |]. destruct Hhd; simpl; by constructor.
Qed.

Lemma ascending_keys_strict {E} (key : E → Z) (l : list E) :
  NoDup (key <$> l) → ascending key l → StronglySorted Z.lt (key <$> l).
Proof.
  intros Hnodup Hasc.
  assert (Transitive (λ x y : E, key x ≤ key y)) by (intros ???; lia).
  apply Sorted_StronglySorted in Hasc; [| done].
  induction Hasc as [| x l _ IH Hall]; simpl in *; [apply SSorted_nil |].
  apply NoDup_cons in Hnodup as [Hx Hnodup].
  apply SSorted_cons; [by apply IH |].
  apply Forall_fmap, Forall_forall. intros y Hy. simpl.
  rewrite Forall_forall in Hall. specialize (Hall y Hy). simpl in Hall.
  assert (key x ≠ key y); [| lia].
  intros Heq. apply Hx. rewrite Heq. by apply list_elem_of_fmap_2.
Qed.

(** ** Phi nodes *)

Section PhiProperties.
Context `{GoSort}.
Variable blk : BlockRef → BasicBlock.

(** The entries of the predecessor map, each block replaced by its
    identifier. *)
Definition phi_sources (self : IrPhi.ty) : list (Z * RegRef) :=
  (λ e, (Id (blk e.1), e.2)) <$> map_to_list (IrPhi.V self).

(** The predecessor blocks of the node carry pairwise distinct
    identifiers: the identifier tells the blocks apart. *)
Definition distinct_block_ids (self : IrPhi.ty) : Prop :=
  ∀ b1 b2, is_Some (IrPhi.V self !! b1) → is_Some (IrPhi.V self !! b2) →
           Id (blk b1) = Id (blk b2) → b1 = b2.

Lemma phi_collect (order : list (BlockRef * RegRef)) (k0 : list Z) (v0 : list RegRef) :
  foldl (λ '(k, v) '(b, r), let v := v ++ [r] in let k := k ++ [Id (blk b)] in (k, v))
        (k0, v0) order
  = (k0 ++ ((λ e, Id (blk e.1)) <$> order), v0 ++ order.*2).
Proof.
  revert k0 v0. induction order as [| [b r] order IH]; intros k0 v0; simpl.
  - by rewrite !app_nil_r.
  - rewrite IH. by rewrite <- !app_assoc.
Qed.

Lemma zip_ids_regs (order : list (BlockRef * RegRef)) :
  zip ((λ e, Id (blk e.1)) <$> order) (order.*2) = (λ e, (Id (blk e.1), e.2)) <$> order.
Proof. induction order as [| [b r] order IH]; csimpl; [done | by rewrite IH]. Qed.

Lemma phi_sources_NoDup (self : IrPhi.ty) :
  distinct_block_ids self → NoDup ((phi_sources self).*1).
Proof.
  intros Hdistinct. unfold phi_sources. rewrite <- list_fmap_compose.
  apply (NoDup_fmap_2_strong _ (map_to_list (IrPhi.V self))).
  - intros [b1 r1] [b2 r2] H1 H2 Hid. simpl in Hid.
    apply elem_of_map_to_list in H1, H2.
    assert (b1 = b2) as -> by (apply Hdistinct; eauto).
    congruence.
  - apply NoDup_map_to_list.
Qed.

(** What [Usages] returns for one iteration order of the map. *)
Lemma IrPhi_Usages_run (self : IrPhi.ty) (order : list (BlockRef * RegRef)) :
  order ≡ₚ map_to_list (IrPhi.V self) →
  ∃ ks us,
    IrPhi.Usages blk self order = Ok us
    ∧ length ks = length us
    ∧ zip ks us ≡ₚ phi_sources self
    ∧ ascending fst (zip ks us).
Proof.
  intros Horder. unfold IrPhi.Usages. rewrite phi_collect. simpl.
  destruct (sort_Sort_sorts _ _ _ _ _ _ _PhiSorter_slice_like
              {| _PhiSorter.k := (λ e, Id (blk e.1)) <$> order; _PhiSorter.v := order.*2 |})
    as ([ks us] & -> & Hwf & Hperm & Hasc).
  { simpl. by rewrite !length_fmap. }
  cbn [_PhiSorter.k _PhiSorter.v] in *. simpl. exists ks, us. repeat split; try done.
  rewrite Hperm, zip_ids_regs. unfold phi_sources. by rewrite Horder.
Qed.

(** C3, as amended: [Usages] returns one source-register location for each
    entry of the predecessor map, arranged by ascending block identifier;
    when the predecessor blocks carry pairwise distinct identifiers, the
    result is the same whatever the order in which the map is visited.
    [Definations] returns the location of the merge target alone. *)
Theorem IrPhi_Usages_Definations
    (p : NodeRef) (self : IrPhi.ty) (order : list (BlockRef * RegRef)) :
  order ≡ₚ map_to_list (IrPhi.V self) →
  ∃ ks us,
    IrPhi.Usages blk self order = Ok us
    ∧ us ≡ₚ (map_to_list (IrPhi.V self)).*2
    ∧ length ks = length us
    ∧ zip ks us ≡ₚ phi_sources self
    ∧ Sorted Z.le ks
    ∧ (distinct_block_ids self →
       ∀ order', order' ≡ₚ map_to_list (IrPhi.V self) →
                 IrPhi.Usages blk self order' = Ok us)
    ∧ IrPhi.Definations p = [FieldRef p "R"].
Proof.
  intros Horder.
  destruct (IrPhi_Usages_run self order Horder) as (ks & us & Hrun & Hlen & Hperm & Hasc).
  exists ks, us. split; [done |]. split; [| split; [done | split; [done | split; [| split; [| done]]]]].
  - rewrite <- (snd_zip ks us) by lia. rewrite Hperm. unfold phi_sources.
    by rewrite <- list_fmap_compose.
  - rewrite <- (fst_zip ks us) by lia. by apply ascending_keys.
  - intros Hdistinct order' Horder'.
    destruct (IrPhi_Usages_run self order' Horder') as (ks' & us' & -> & Hlen' & Hperm' & Hasc').
    f_equal.
    assert (zip ks' us' = zip ks us) as Hzip.
    { apply (ascending_unique fst); try done.
      - rewrite Hperm'. by apply phi_sources_NoDup.
      - by rewrite Hperm, Hperm'. }
    rewrite <- (snd_zip ks us), <- (snd_zip ks' us') by lia. by rewrite Hzip.
Qed.
End PhiProperties.

(** ** Switch terminators *)

(** The branch table entry [(v, b)] as the slice element [iter] builds. *)
Definition switch_target (e : Z * BlockRef) : _SwitchTarget.ty :=
  {| _SwitchTarget.i := e.1; _SwitchTarget.b := e.2 |}.

(** The edge a consumer sees for the branch [(v, b)]: the value [v],
    present, and the block [b]. *)
Definition branch_edge (e : Z * BlockRef) : Edge :=
  {| edge_value := (e.1, true); edge_block := Some e.2 |}.

(** The edge a consumer sees for the default target: no value. *)
Definition default_edge (ln : BlockRef) : Edge :=
  {| edge_value := (0, false); edge_block := Some ln |}.

(** The edges read off a slice of targets whose last element is the
    default target. *)
Fixpoint edges_of (t : list _SwitchTarget.ty) : list Edge :=
  match t with
  | [] => []
  | x :: rest =>
      match rest with
      | [] => [default_edge (_SwitchTarget.b x)]
      | _ :: _ => branch_edge (_SwitchTarget.i x, _SwitchTarget.b x) :: edges_of rest
      end
  end.

Lemma edges_of_branches (branches : list (Z * BlockRef)) (ln : BlockRef) :
  edges_of ((switch_target <$> branches) ++ [switch_target (0, ln)])
  = (branch_edge <$> branches) ++ [default_edge ln].
Proof.
  induction branches as [| [v b] branches IH]; [done |].
  csimpl. rewrite <- IH.
  by destruct ((switch_target <$> branches) ++ [switch_target (0, ln)]) eqn:Heq;
    [destruct branches; discriminate |].
Qed.

Lemma int_wrap_small (z : Z) : - 2 ^ 63 ≤ z < 2 ^ 63 → int_wrap z = z.
Proof. intros Hz. unfold int_wrap. rewrite Z.mod_small; lia. Qed.

(** A consumer standing before position [p] sees the edges of the
    remaining targets and then the end of the sequence. *)
Lemma successors_list_from (t : list _SwitchTarget.ty) (fuel p : nat) :
  Z.of_nat (length t) < 2 ^ 63 →
  (p ≤ length t)%nat →
  (length t - p < fuel)%nat →
  successors_list fuel {| _SwitchSuccessors.i := Z.of_nat p - 1; _SwitchSuccessors.t := t |}
  = Some (Ok (edges_of (drop p t))).
Proof.
  intros Hlen. revert p. induction fuel as [| fuel IH]; intros p Hp Hfuel; [lia |].
  simpl. unfold _SwitchSuccessors.len_t. simpl.
  rewrite int_wrap_small by lia.
  replace (Z.of_nat p - 1 + 1) with (Z.of_nat p) by lia.
  case_bool_decide as Hmore.
  - destruct (lookup_lt_is_Some_2 t p) as [x Hx]; [lia |].
    unfold _SwitchSuccessors.Value, _SwitchSuccessors.Block, _SwitchSuccessors.len_t. simpl.
    rewrite (bool_decide_eq_false_2 (Z.of_nat p >= Z.of_nat (length t))) by lia.
    unfold indexZ. rewrite (proj2 (Z.ltb_ge _ _)) by lia.
    rewrite Nat2Z.id, (index_lookup _ _ _ Hx). simpl.
    rewrite (drop_S _ _ _ Hx).
    assert (Z.of_nat p = Z.of_nat (Datatypes.S p) - 1) as Hnext by lia.
    case_bool_decide as Hlast.
    + rewrite Hnext, IH by lia.
      rewrite drop_ge by lia. done.
    + rewrite Hnext, IH by lia.
      destruct (drop (Datatypes.S p) t) eqn:Hdrop; [| done].
      apply (f_equal length) in Hdrop. rewrite length_drop in Hdrop. simpl in Hdrop. lia.
  - rewrite drop_ge by lia. done.
Qed.

Lemma result_bind_Ok {A B} (a : A) (f : A → result B) : (Ok a ≫= f) = f a.
Proof. reflexivity. Qed.

Lemma switch_target_inv (t : list _SwitchTarget.ty) :
  switch_target <$> ((λ x, (_SwitchTarget.i x, _SwitchTarget.b x)) <$> t) = t.
Proof.
  rewrite <- list_fmap_compose. rewrite <- (list_fmap_id t) at 2.
  apply list_fmap_ext. by intros _ [] _.
Qed.

Lemma switch_target_key (branches : list (Z * BlockRef)) :
  _SwitchTarget.i <$> (switch_target <$> branches) = branches.*1.
Proof. rewrite <- list_fmap_compose. by apply list_fmap_ext. Qed.

Lemma StronglySorted_by_fst {B} (l : list (Z * B)) :
  StronglySorted Z.lt (l.*1) → StronglySorted (λ x y, x.1 < y.1) l.
Proof.
  induction l as [| x l IH]; csimpl; intros Hs; [apply SSorted_nil |].
  apply StronglySorted_cons in Hs as [Hall Hs].
  apply SSorted_cons; [by apply IH |].
  rewrite Forall_fmap in Hall. eapply Forall_impl; [exact Hall | done].
Qed.

(** The branches of a switch in ascending order of their values: the
    values are the keys of a map, so the order is strict and there is one
    such arrangement only. *)
Lemma sorted_branches_unique {B} (m : gmap Z B) (l1 l2 : list (Z * B)) :
  l1 ≡ₚ map_to_list m → l2 ≡ₚ map_to_list m →
  StronglySorted Z.lt (l1.*1) → StronglySorted Z.lt (l2.*1) →
  l1 = l2.
Proof.
  intros H1 H2 Hs1 Hs2.
  apply (StronglySorted_unique_strong (λ x y, x.1 < y.1)).
  - intros ? ? _ _ ? ?. lia.
  - by apply StronglySorted_by_fst.
  - by apply StronglySorted_by_fst.
  - by rewrite H1, H2.
Qed.

Section SwitchProperties.
Context `{GoSort}.
Context {ArchReg : Type}.
Variable ArchRegs : list ArchReg.
Variable ArchRegNames : ArchReg → string.
Variable blk : BlockRef → BasicBlock.

Lemma iter_collect (order : list (Z * BlockRef)) (t0 : list _SwitchTarget.ty) :
  foldl (λ t '(i, b), t ++ [{| _SwitchTarget.i := i; _SwitchTarget.b := b |}]) t0 order
  = t0 ++ (switch_target <$> order).
Proof.
  revert t0. induction order as [| [i b] order IH]; intros t0; csimpl.
  - by rewrite app_nil_r.
  - rewrite IH. by rewrite <- app_assoc.
Qed.

(** What [iter] builds for one iteration order of the branch map. *)
Lemma IrSwitch_iter_run (self : IrSwitch.ty) (order : list (Z * BlockRef)) :
  order ≡ₚ map_to_list (IrSwitch.Br self) →
  ∃ branches,
    IrSwitch.iter self order
    = Ok {| _SwitchSuccessors.i := -1;
            _SwitchSuccessors.t := (switch_target <$> branches)
                                     ++ [switch_target (0, IrSwitch.Ln self)] |}
    ∧ branches ≡ₚ map_to_list (IrSwitch.Br self)
    ∧ StronglySorted Z.lt (branches.*1).
Proof.
  intros Horder. unfold IrSwitch.iter. rewrite iter_collect. simpl.
  assert (size (IrSwitch.Br self) = length (switch_target <$> order)) as Hn.
  { by rewrite length_fmap, Horder, length_map_to_list. }
  rewrite Hn, take_app_length, drop_app_length.
  destruct (sort_Sort_sorts _ _ (lessSwap IrSwitch.iter_less) _ _ _
              (lessSwap_slice_like _SwitchTarget.i IrSwitch.iter_less ltac:(done))
              (switch_target <$> order) I)
    as (sorted & Hrun & _ & Hperm & Hasc).
  unfold sort_Slice. rewrite Hrun. simpl.
  exists ((λ x, (_SwitchTarget.i x, _SwitchTarget.b x)) <$> sorted).
  rewrite switch_target_inv. split; [done |].
  assert (((λ x, (_SwitchTarget.i x, _SwitchTarget.b x)) <$> sorted)
            ≡ₚ map_to_list (IrSwitch.Br self)) as Hbranches.
  { rewrite Hperm, <- list_fmap_compose, <- Horder.
    rewrite (list_fmap_ext _ id order); [by rewrite list_fmap_id |].
    by intros _ [] _. }
  split; [done |].
  rewrite <- list_fmap_compose.
  apply (ascending_keys_strict _SwitchTarget.i); [| done].
  rewrite Hperm, switch_target_key, Horder. apply NoDup_fst_map_to_list.
Qed.

(** C2: [Successors] yields one edge for each entry of the branch map,
    in strictly ascending order of the discriminant value and each with
    its value present, then the default edge, last and without a value;
    the sequence ends there.  Every call builds the same sequence anew,
    whatever the order in which the map is visited. *)
Theorem IrSwitch_Successors_edges (self : IrSwitch.ty) (order : list (Z * BlockRef)) :
  order ≡ₚ map_to_list (IrSwitch.Br self) →
  Z.of_nat (size (IrSwitch.Br self)) < 2 ^ 63 - 1 →
  ∃ it branches,
    IrSwitch.Successors self order = Ok it
    ∧ branches ≡ₚ map_to_list (IrSwitch.Br self)
    ∧ StronglySorted Z.lt (branches.*1)
    ∧ (∀ fuel, (length branches + 1 < fuel)%nat →
         successors_list fuel it
         = Some (Ok ((branch_edge <$> branches) ++ [default_edge (IrSwitch.Ln self)])))
    ∧ (∀ order', order' ≡ₚ map_to_list (IrSwitch.Br self) →
         IrSwitch.Successors self order' = Ok it).
Proof.
  intros Horder Hsize. unfold IrSwitch.Successors.
  destruct (IrSwitch_iter_run self order Horder) as (branches & Hrun & Hperm & Hsorted).
  eexists _, branches. split; [exact Hrun |].
  split; [done |]. split; [done |]. split.
  - intros fuel Hfuel.
    assert (length branches = size (IrSwitch.Br self)) as Hlen.
    { by rewrite Hperm, length_map_to_list. }
    rewrite <- edges_of_branches.
    apply (successors_list_from _ fuel 0).
    + rewrite length_app, length_fmap. simpl. lia.
    + lia.
    + rewrite length_app, length_fmap. simpl. lia.
  - intros order' Horder'.
    destruct (IrSwitch_iter_run self order' Horder') as (branches' & -> & Hperm' & Hsorted').
    by rewrite (sorted_branches_unique (IrSwitch.Br self) branches' branches).
Qed.

(** One line of a rendered switch block. *)
Definition case_line (e : Z * BlockRef) : string :=
  "  " +:+ fmt_d e.1 +:+ " => bb_" +:+ fmt_d (Id (blk e.2)) +:+ ",".

Lemma case_lines (t : list _SwitchTarget.ty) (r0 : list string) :
  foldl (λ r v, r ++ ["  " +:+ fmt_d (_SwitchTarget.i v) +:+ " => bb_"
                        +:+ fmt_d (Id (blk (_SwitchTarget.b v))) +:+ ","]) r0 t
  = r0 ++ (case_line <$> ((λ x, (_SwitchTarget.i x, _SwitchTarget.b x)) <$> t)).
Proof.
  revert r0. induction t as [| x t IH]; intros r0; csimpl.
  - by rewrite app_nil_r.
  - rewrite IH. by rewrite <- app_assoc.
Qed.

(** C8: a switch without branches renders as the jump [goto bb_<id>] to
    its default block; a switch with a branch renders as a switch block,
    one line for each branch in ascending order of the value and a last
    line for the default target. *)
Theorem IrSwitch_String_goto (self : IrSwitch.ty) (order : list (Z * BlockRef)) :
  order ≡ₚ map_to_list (IrSwitch.Br self) →
  (IrSwitch.Br self = ∅ →
     IrSwitch.String ArchRegs ArchRegNames blk self order
     = Ok ("goto bb_" +:+ fmt_d (Id (blk (IrSwitch.Ln self)))))
  ∧ (IrSwitch.Br self ≠ ∅ →
     ∃ branches,
       branches ≡ₚ map_to_list (IrSwitch.Br self)
       ∧ StronglySorted Z.lt (branches.*1)
       ∧ IrSwitch.String ArchRegs ArchRegNames blk self order
         = Ok ("switch " +:+ fmt_s (Reg_String ArchRegs ArchRegNames (IrSwitch.V self))
                 +:+ " {" +:+ newline
                 +:+ strings_Join ((case_line <$> branches)
                                     ++ ["  _ => bb_" +:+ fmt_d (Id (blk (IrSwitch.Ln self))) +:+ ","])
                                  newline
                 +:+ newline +:+ "}")).
Proof.
  intros Horder. unfold IrSwitch.String. split.
  - intros ->. by rewrite map_size_empty.
  - intros Hne.
    rewrite bool_decide_eq_false_2 by (by rewrite map_size_empty_iff).
    destruct (IrSwitch_iter_run self order Horder) as (branches & -> & Hperm & Hsorted).
    exists branches. split; [done |]. split; [done |].
    rewrite result_bind_Ok. cbn [_SwitchSuccessors.t].
    assert (size (IrSwitch.Br self) = length (switch_target <$> branches)) as ->.
    { by rewrite length_fmap, Hperm, length_map_to_list. }
    rewrite take_app_length, case_lines, app_nil_l.
    rewrite <- (list_fmap_compose switch_target), (list_fmap_ext _ id branches), list_fmap_id;
      [done |].
    by intros _ [] _.
Qed.
End SwitchProperties.

(** ** Copies *)

(** C10: [IrCopy r v] is the addition [r = v + Rz].  The second operand is
    the non-pointer zero register whatever [r] and [v] are, so never [Pn];
    [Usages] returns the locations of the two operands, the one holding
    [v] first, and [Definations] returns the location holding [r]. *)
Theorem IrCopy_adds_Rz (p : NodeRef) (r v : Reg) :
  let e := IrCopy r v in
  IrBinaryExpr.Op e = IrOpAdd
  ∧ IrBinaryExpr.Y e = Rz
  ∧ IrBinaryExpr.Y e ≠ Pn
  ∧ IrBinaryExpr.Usages p = [FieldRef p "X"; FieldRef p "Y"]
  ∧ IrBinaryExpr.load p e <$> IrBinaryExpr.Usages p = [Some v; Some Rz]
  ∧ IrBinaryExpr.Definations p = [FieldRef p "R"]
  ∧ IrBinaryExpr.load p e <$> IrBinaryExpr.Definations p = [Some r].
Proof.
  simpl. repeat split; try done.
  - by rewrite bool_decide_eq_true_2.
  - by rewrite bool_decide_eq_true_2.
Qed.

Example IrCopy_of_pointers :
  Reg_Ptr Pr = true ∧ Reg_Ptr (Reg_normalize Pn 1) = true
  ∧ IrBinaryExpr.Y (IrCopy Pr (Reg_normalize Pn 1)) = Rz.
Proof. by repeat split. Qed.

(** ** Calls *)

(** The receiver does not fit the call kind: it is missing on an interface
    call, or present on a native or managed call. *)
Definition receiver_mismatch (c : IrCall.ty) : Prop :=
  (IrCall.Rx c = None ∧ Type_ (IrCall.Fn c) = ICall)
  ∨ (IrCall.Rx c ≠ None ∧ Type_ (IrCall.Fn c) ≠ ICall).

Lemma result_bind_Panic {A B} (msg : string) (f : A → result B) : (Panic msg ≫= f) = Panic msg.
Proof. reflexivity. Qed.

Lemma mapM_result_Panic {A B} (f : A → result B) (l : list A) (msg : string) :
  mapM f l = Panic msg → ∃ x, x ∈ l ∧ f x = Panic msg.
Proof.
  induction l as [| x l IH]; csimpl; [done |].
  destruct (f x) as [y | msg'] eqn:Hfx; csimpl.
  - destruct (mapM f l) as [ys | msg'] eqn:Hl; csimpl; [done |].
    intros [= ->]. destruct IH as (x' & Hx' & Hfx'); [done |].
    exists x'. split; [by right | done].
  - intros [= ->]. exists x. split; [by left | done].
Qed.

Section CallProperties.
Context {ArchReg : Type}.
Variable ArchRegs : list ArchReg.
Variable ArchRegNames : ArchReg → string.
Variable CallHandle_String : CallHandle → string.

Lemma Reg_String_other_panic (r : Reg) :
  Reg_String ArchRegs ArchRegNames r ≠ Panic "invalid receiver value".
Proof.
  unfold Reg_String, index_out_of_range.
  repeat match goal with
         | |- context [if ?b then _ else _] => destruct b
         | |- context [match ?o with Some _ => _ | None => _ end] => destruct o
         end; discriminate.
Qed.

(** Past the receiver check, [String] may still panic, on a call kind
    it does not know or on a register it cannot render, with another
    message. *)
Lemma IrCall_String_past_check (c : IrCall.ty) (msg : string) :
  bool_decide (IrCall.Rx c = None) ≠ bool_decide (Type_ (IrCall.Fn c) = ICall) →
  IrCall.String ArchRegs ArchRegNames CallHandle_String c = Panic msg →
  msg ≠ "invalid receiver value".
Proof.
  intros Hcheck. unfold IrCall.String.
  rewrite (bool_decide_eq_false_2 _ Hcheck).
  assert (∀ regs, mapM (Reg_String ArchRegs ArchRegNames) regs
                  ≠ Panic "invalid receiver value") as Hregs.
  { intros regs Hpanic. apply mapM_result_Panic in Hpanic as (r & _ & Hr).
    by apply Reg_String_other_panic in Hr. }
  destruct (Type_ (IrCall.Fn c)).
  4: { rewrite result_bind_Panic. intros [= <-]. discriminate. }
  all: rewrite result_bind_Ok.
  all: destruct (mapM _ (IrCall.In c)) as [ins | msg'] eqn:Hin;
    [rewrite result_bind_Ok
    | rewrite result_bind_Panic; intros [= <-] ->; exact (Hregs _ Hin)].
  all: destruct (mapM _ (IrCall.Out c)) as [outs | msg'] eqn:Hout;
    [rewrite result_bind_Ok
    | rewrite result_bind_Panic; intros [= <-] ->; exact (Hregs _ Hout)].
  all: destruct (bool_decide (length outs = 0%nat)); intros Heq; discriminate Heq.
Qed.

(** C4, as amended: the receiver invariant is checked when the call is
    rendered, not when it is built.  [String] panics with [invalid
    receiver value] exactly when the receiver is missing on an interface
    call or present on a native or managed call. *)
Theorem IrCall_String_checks_receiver (c : IrCall.ty) :
  IrCall.String ArchRegs ArchRegNames CallHandle_String c = Panic "invalid receiver value"
  ↔ receiver_mismatch c.
Proof.
  unfold receiver_mismatch. split.
  - intros Hpanic.
    destruct (decide (IrCall.Rx c = None)) as [Hrx | Hrx],
             (decide (Type_ (IrCall.Fn c) = ICall)) as [Hty | Hty]; auto.
    + exfalso. refine (IrCall_String_past_check c _ _ Hpanic eq_refl).
      by rewrite (bool_decide_eq_true_2 _ Hrx), (bool_decide_eq_false_2 _ Hty).
    + exfalso. refine (IrCall_String_past_check c _ _ Hpanic eq_refl).
      by rewrite (bool_decide_eq_false_2 _ Hrx), (bool_decide_eq_true_2 _ Hty).
  - unfold IrCall.String. intros [[Hrx Hty] | [Hrx Hty]].
    + by rewrite (bool_decide_eq_true_2 _ Hrx), (bool_decide_eq_true_2 _ Hty).
    + by rewrite (bool_decide_eq_false_2 _ Hrx), (bool_decide_eq_false_2 _ Hty).
Qed.
End CallProperties.

(** C4, the claim refuted: an interface call without a receiver and a
    native call with one are built like any other node, and their
    [Usages] and [Definations] return as usual; nothing fails before the
    node is rendered. *)
Lemma IrCall_mismatch_is_built :
  let dynamic := {| IrCall.Fn := {| Type_ := ICall; Slot := 3 |}; IrCall.Rx := None;
                    IrCall.In := [Tr]; IrCall.Out := [Pr] |} in
  let native := {| IrCall.Fn := {| Type_ := CCall; Slot := 0 |};
                   IrCall.Rx := Some {| IrReceiver.T := Pr; IrReceiver.V := Pn |};
                   IrCall.In := [Tr]; IrCall.Out := [] |} in
  (receiver_mismatch dynamic
   ∧ IrCall.Usages 1%positive dynamic = [ElemRef 1%positive "In" 0%nat]
   ∧ IrCall.Definations 1%positive dynamic = [ElemRef 1%positive "Out" 0%nat])
  ∧ (receiver_mismatch native
     ∧ IrCall.Usages 2%positive native
       = [FieldRef 2%positive "Rx.T"; FieldRef 2%positive "Rx.V"; ElemRef 2%positive "In" 0%nat]
     ∧ IrCall.Definations 2%positive native = []).
Proof.
  split; (split; [| by split]).
  - by left.
  - by right.
Qed.

(** ** The scenarios of the specification, run on the insertion sort *)

(** Blocks stand at addresses 1, 2, ...; the block at address [b] has the
    identifier [b]. *)
Definition blocks_by_address (b : BlockRef) : BasicBlock := {| Id := Z.pos b |}.

(** A switch with the branches [{5: B5, 1: B1}] and the default block
    [Bd]: the blocks are [B5 = 50], [B1 = 10] and [Bd = 9]. *)
Definition switch_5_1 : IrSwitch.ty :=
  {| IrSwitch.V := Reg_normalize Rz 4;
     IrSwitch.Ln := 9%positive;
     IrSwitch.Br := {[ 5 := 50%positive; 1 := 10%positive ]} |}.

Definition switch_empty : IrSwitch.ty :=
  {| IrSwitch.V := Reg_normalize Rz 4; IrSwitch.Ln := 9%positive; IrSwitch.Br := ∅ |}.

(** A phi node fed from the blocks 3, 1 and 2 with the registers held
    at [R3], [R1] and [R2]. *)
Definition phi_3_1_2 : IrPhi.ty :=
  {| IrPhi.R := Reg_normalize Rz 0;
     IrPhi.V := {[ 3%positive := VarRef 33; 1%positive := VarRef 11; 2%positive := VarRef 22 ]} |}.

Example switch_5_1_successors :
  ∀ order, order ∈ [[(5, 50%positive); (1, 10%positive)]; [(1, 10%positive); (5, 50%positive)]] →
    (it ← IrSwitch.Successors (H := insertion_GoSort) switch_5_1 order;
     Ok (successors_list 4 it))
    = Ok (Some (Ok [branch_edge (1, 10%positive); branch_edge (5, 50%positive);
                    default_edge 9%positive])).
Proof.
  intros order Horder. rewrite !elem_of_cons in Horder.
  destruct Horder as [-> | [-> | Hnil]]; [by vm_compute .. | by apply elem_of_nil in Hnil].
Qed.

Example switch_5_1_before_Next :
  (it ← IrSwitch.Successors (H := insertion_GoSort) switch_5_1 [(5, 50%positive); (1, 10%positive)];
   _SwitchSuccessors.Value it)
  = Panic "runtime error: index out of range [-1]".
Proof. by vm_compute. Qed.

Example switch_5_1_String :
  IrSwitch.String (H := insertion_GoSort) (@nil unit) (λ _, "") blocks_by_address
    switch_5_1 [(5, 50%positive); (1, 10%positive)]
  = Ok ("switch %r4 {" +:+ newline +:+ "  1 => bb_10," +:+ newline +:+ "  5 => bb_50,"
          +:+ newline +:+ "  _ => bb_9," +:+ newline +:+ "}").
Proof. by vm_compute. Qed.

Example switch_empty_String :
  IrSwitch.String (H := insertion_GoSort) (@nil unit) (λ _, "") blocks_by_address switch_empty []
  = Ok "goto bb_9".
Proof. by vm_compute. Qed.

Example phi_3_1_2_Usages :
  ∀ order,
    order ∈ [[(3%positive, VarRef 33); (1%positive, VarRef 11); (2%positive, VarRef 22)];
             [(2%positive, VarRef 22); (3%positive, VarRef 33); (1%positive, VarRef 11)];
             [(1%positive, VarRef 11); (2%positive, VarRef 22); (3%positive, VarRef 33)]] →
    IrPhi.Usages (H := insertion_GoSort) blocks_by_address phi_3_1_2 order
    = Ok [VarRef 11; VarRef 22; VarRef 33].
Proof.
  intros order Horder. rewrite !elem_of_cons in Horder.
  destruct Horder as [-> | [-> | [-> | Hnil]]]; [by vm_compute .. | by apply elem_of_nil in Hnil].
Qed.

Example call_String_icall :
  IrCall.String (@nil unit) (λ _, "") (λ _, "fn")
    {| IrCall.Fn := {| Type_ := ICall; Slot := 3 |};
       IrCall.Rx := Some {| IrReceiver.T := Pr; IrReceiver.V := Reg_normalize Pn 2 |};
       IrCall.In := [Reg_normalize Rz 1]; IrCall.Out := [Reg_normalize Rz 5] |}
  = Ok "%r5 = icall #3, {%tp0, %p2}, {%r1}".
Proof. by vm_compute. Qed.

(** C3, the claim refuted: with two predecessor blocks that carry the same
    identifier, the registers come back in the order in which the map is
    visited, so two visits of the same map disagree. *)
Lemma IrPhi_Usages_follows_visit_order :
  let blk := λ _ : BlockRef, {| Id := 0 |} in
  let phi := {| IrPhi.R := Rz;
                IrPhi.V := {[ 1%positive := VarRef 11; 2%positive := VarRef 22 ]} |} in
  let order := [(1%positive, VarRef 11); (2%positive, VarRef 22)] in
  let order' := [(2%positive, VarRef 22); (1%positive, VarRef 11)] in
  order ≡ₚ map_to_list (IrPhi.V phi)
  ∧ order' ≡ₚ map_to_list (IrPhi.V phi)
  ∧ IrPhi.Usages (H := insertion_GoSort) blk phi order = Ok [VarRef 11; VarRef 22]
  ∧ IrPhi.Usages (H := insertion_GoSort) blk phi order' = Ok [VarRef 22; VarRef 11]
  ∧ ¬ (∀ order order',
         order ≡ₚ map_to_list (IrPhi.V phi) →
         order' ≡ₚ map_to_list (IrPhi.V phi) →
         IrPhi.Usages (H := insertion_GoSort) blk phi order
         = IrPhi.Usages (H := insertion_GoSort) blk phi order').
Proof.
  intros blk phi order order'.
  assert (order ≡ₚ map_to_list (IrPhi.V phi)) as Hperm.
  { subst phi order. cbn [IrPhi.V]. rewrite map_to_list_insert by done.
    by rewrite map_to_list_singleton. }
  assert (order' ≡ₚ map_to_list (IrPhi.V phi)) as Hperm'.
  { rewrite <- Hperm. apply perm_swap. }
  split; [done |]. split; [done |].
  split; [by vm_compute |]. split; [by vm_compute |].
  intros Hsame. specialize (Hsame order order' Hperm Hperm').
  by vm_compute in Hsame.
Qed.

(** The statement of [IrPhi_Usages_Definations] at the phi node fed from
    the blocks 3, 1 and 2. *)
Lemma IrPhi_Usages_Definations_witness :
  ∃ us,
    IrPhi.Usages (H := insertion_GoSort) blocks_by_address phi_3_1_2
      (map_to_list (IrPhi.V phi_3_1_2)) = Ok us
    ∧ us ≡ₚ (map_to_list (IrPhi.V phi_3_1_2)).*2
    ∧ IrPhi.Definations 7%positive = [FieldRef 7%positive "R"].
Proof.
  destruct (IrPhi_Usages_Definations (H := insertion_GoSort) blocks_by_address 7%positive
              phi_3_1_2 (map_to_list (IrPhi.V phi_3_1_2)))
    as (ks & us & Hrun & Hperm & _ & _ & _ & _ & Hdef).
  - reflexivity.
  - exists us. split; [exact Hrun |]. split; [exact Hperm | exact Hdef].
Defined.

(** The statement of [IrSwitch_Successors_edges] at the switch with the
    branches 5 and 1, drained with four calls to [Next]. *)
Lemma IrSwitch_Successors_edges_witness :
  ∃ it branches,
    IrSwitch.Successors (H := insertion_GoSort) switch_5_1 (map_to_list (IrSwitch.Br switch_5_1))
    = Ok it
    ∧ branches ≡ₚ map_to_list (IrSwitch.Br switch_5_1)
    ∧ StronglySorted Z.lt (branches.*1)
    ∧ successors_list 4 it
      = Some (Ok ((branch_edge <$> branches) ++ [default_edge (IrSwitch.Ln switch_5_1)])).
Proof.
  destruct (IrSwitch_Successors_edges (H := insertion_GoSort) switch_5_1
              (map_to_list (IrSwitch.Br switch_5_1)))
    as (it & branches & Hrun & Hperm & Hsorted & Hedges & _).
  - reflexivity.
  - by vm_compute.
  - exists it, branches. split; [exact Hrun |]. split; [exact Hperm |].
    split; [exact Hsorted |]. apply Hedges.
    rewrite (Permutation_length Hperm). vm_compute. lia.
Defined.

(** The statement of [IrSwitch_String_goto] at the switch without
    branches. *)
Lemma IrSwitch_String_goto_witness :
  IrSwitch.String (H := insertion_GoSort) (@nil unit) (λ _, "") blocks_by_address switch_empty []
  = Ok ("goto bb_" +:+ fmt_d (Id (blocks_by_address (IrSwitch.Ln switch_empty)))).
Proof.
  refine (proj1 (IrSwitch_String_goto (H := insertion_GoSort) (@nil unit) (λ _, "")
                   blocks_by_address switch_empty [] _) _).
  - unfold switch_empty. cbn [IrSwitch.Br]. by rewrite map_to_list_empty.
  - reflexivity.
Defined.

(** * Further properties of the register word *)

(** The pointer bit, the kind field and the index field make up the whole
    64-bit word. *)
Lemma word_fields (r : Reg) :
  0 ≤ r < 2 ^ 64 →
  Z.lor (Z.land r (Z.lor _R_ptr _R_kind)) (Z.land r _R_index) = r.
Proof.
  intros Hr. rewrite <- Z.land_lor_distr_r.
  change (Z.lor (Z.lor _R_ptr _R_kind) _R_index) with (Z.ones 64).
  rewrite Z.land_ones by lia. by apply Z.mod_small.
Qed.

(** The kind field of a word is its kind, moved back into place. *)
Lemma kind_field (r : Reg) : Z.land r _R_kind = Z.shiftl (Reg_kind r) _B_kind.
Proof.
  unfold Reg_kind. apply Z.bits_inj'. intros n Hn.
  destruct (Z.lt_ge_cases n _B_kind) as [Hlow | Hhigh].
  - rewrite Z.shiftl_spec_low by done.
    rewrite Z.land_spec. change _R_kind with (Z.shiftl _M_kind _B_kind).
    rewrite (Z.shiftl_spec_low _M_kind) by done. apply andb_false_r.
  - rewrite Z.shiftl_spec by done. rewrite Z.shiftr_spec by lia.
    by replace (n - _B_kind + _B_kind) with n by lia.
Qed.

Lemma high_fields (r : Reg) :
  Z.land r (Z.lor _R_ptr _R_kind)
  = Z.lor (if Reg_Ptr r then _R_ptr else 0) (Z.shiftl (Reg_kind r) _B_kind).
Proof. by rewrite Z.land_lor_distr_r, land_ptr_bit, kind_field. Qed.

Lemma Reg_fields_determine_word_parts (r1 r2 : Reg) :
  0 ≤ r1 < 2 ^ 64 →
  0 ≤ r2 < 2 ^ 64 →
  Reg_kind r1 = Reg_kind r2 →
  Reg_Ptr r1 = Reg_Ptr r2 ∧ Reg_Index r1 = Reg_Index r2 →
  r1 = r2.
Proof.
  intros Hr1 Hr2 Hkind [Hptr Hindex].
  rewrite <- (word_fields r1 Hr1), <- (word_fields r2 Hr2).
  rewrite !high_fields, Hptr, Hkind. unfold Reg_Index in Hindex. by rewrite Hindex.
Qed.

(** X1: no two words alias.  Two 64-bit words with the same pointer flag,
    the same kind and the same index are the same word. *)
Theorem Reg_fields_determine_word (r1 r2 : Reg) :
  0 ≤ r1 < 2 ^ 64 →
  0 ≤ r2 < 2 ^ 64 →
  Reg_Ptr r1 = Reg_Ptr r2 →
  Reg_kind r1 = Reg_kind r2 →
  Reg_Index r1 = Reg_Index r2 →
  r1 = r2.
Proof.
  intros Hr1 Hr2 Hptr Hkind Hindex.
  by apply Reg_fields_determine_word_parts.
Qed.

(** The statement of [Reg_fields_determine_word] at two ways of building
    the normalized pointer register 5. *)
Lemma Reg_fields_determine_word_witness :
  Reg_normalize Pn 5 = Reg_rename (Reg_normalize Pr 9) 5.
Proof.
  apply Reg_fields_determine_word.
  - apply Reg_normalize_word.
  - apply Reg_rename_word.
  - reflexivity.
  - reflexivity.
  - reflexivity.
Defined.

(** X2: of two successive [rename] or [normalize] operations only the
    index of the second survives; the kind is the normalized one as soon as
    one of the two is a [normalize], and the register's own otherwise.  So
    the second operation alone gives the same register, except for a
    [rename] after a [normalize]: that is [normalize] at the new index,
    not [rename] at it, unless the register was normalized already. *)
Theorem Reg_rename_normalize_compose (r : Reg) (i j : Z) :
  Reg_rename (Reg_rename r i) j = Reg_rename r j
  ∧ Reg_normalize (Reg_normalize r i) j = Reg_normalize r j
  ∧ Reg_normalize (Reg_rename r i) j = Reg_normalize r j
  ∧ Reg_rename (Reg_normalize r i) j = Reg_normalize r j
  ∧ (Reg_rename (Reg_normalize r i) j = Reg_rename r j ↔ Reg_kind r = _K_norm).
Proof.
  assert (Reg_rename (Reg_normalize r i) j = Reg_normalize r j) as Hlast.
  { unfold Reg_rename, Reg_normalize. mask_fields. reflexivity. }
  split; [unfold Reg_rename; mask_fields; reflexivity |].
  split; [unfold Reg_normalize; mask_fields; reflexivity |].
  split; [unfold Reg_rename, Reg_normalize; mask_fields; reflexivity |].
  split; [exact Hlast |].
  rewrite Hlast. split.
  - intros Heq. rewrite <- (Reg_rename_kind r j), <- Heq. apply Reg_normalize_kind.
  - intros Hk. unfold Reg_kind in Hk. unfold Reg_rename, Reg_normalize.
    f_equal. rewrite Z.land_lor_distr_r. f_equal.
    apply (f_equal (λ z, Z.shiftl z _B_kind)) in Hk. rewrite <- Hk.
    symmetry. apply Z.bits_inj'. intros n Hn.
    destruct (Z.lt_ge_cases n _B_kind) as [Hlt | Hge].
    + rewrite Z.shiftl_spec_low by done. rewrite Z.land_spec.
      replace (Z.testbit _R_kind n) with false; [by rewrite andb_false_r |].
      symmetry. unfold _R_kind, _M_kind, _B_kind in *.
      rewrite Z.shiftl_spec_low by done. reflexivity.
    + rewrite Z.shiftl_spec by done. rewrite Z.shiftr_spec by (unfold _B_kind in *; lia).
      f_equal. lia.
Qed.

(** X3: renaming a 64-bit word to the index it carries changes nothing. *)
Theorem Reg_rename_own_index (r : Reg) :
  0 ≤ r < 2 ^ 64 → Reg_rename r (Reg_Index r) = r.
Proof.
  intros Hr. unfold Reg_rename, Reg_Index.
  rewrite <- Z.land_assoc, mask_index_index. by apply word_fields.
Qed.

Lemma Reg_rename_own_index_witness : Reg_rename Pr (Reg_Index Pr) = Pr.
Proof. apply Reg_rename_own_index. by vm_compute. Defined.

(** X4: an index too wide for the field, or negative, is truncated to its
    low 59 bits by [rename] and by [normalize] alike. *)
Theorem Reg_index_truncated (r : Reg) (i : Z) :
  Reg_Index (Reg_rename r i) = i mod 2 ^ 59
  ∧ Reg_Index (Reg_normalize r i) = i mod 2 ^ 59
  ∧ Reg_rename r (i + 2 ^ 59) = Reg_rename r i
  ∧ Reg_normalize r (i + 2 ^ 59) = Reg_normalize r i.
Proof.
  assert (∀ z, Z.land z _R_index = z mod 2 ^ 59) as Hmask.
  { intros z. change _R_index with (Z.ones 59). by rewrite Z.land_ones. }
  assert (Z.land (i + 2 ^ 59) _R_index = Z.land i _R_index) as Hwrap.
  { rewrite !Hmask. rewrite <- (Z.mul_1_l (2 ^ 59)) at 1. by rewrite Z.mod_add. }
  unfold Reg_Index, Reg_rename, Reg_normalize. rewrite Hwrap.
  repeat split; mask_fields; apply Hmask.
Qed.

Example Reg_rename_negative_index : Reg_Index (Reg_rename Tr (-1)) = 2 ^ 59 - 1.
Proof. reflexivity. Qed.

(** X5: [zero] forgets everything but the pointer flag.  Its result has
    the zero kind, index 0 and the register's pointer flag; applying it
    twice, or after a [rename] or [normalize], changes nothing more. *)
Theorem Reg_zero_forgets (r : Reg) (i : Z) :
  Reg_kind (Reg_zero r) = _K_zero
  ∧ Reg_Index (Reg_zero r) = 0
  ∧ Reg_Ptr (Reg_zero r) = Reg_Ptr r
  ∧ Reg_zero (Reg_zero r) = Reg_zero r
  ∧ Reg_zero (Reg_rename r i) = Reg_zero r
  ∧ Reg_zero (Reg_normalize r i) = Reg_zero r.
Proof.
  unfold Reg_zero. rewrite Reg_rename_Ptr, Reg_normalize_Ptr.
  destruct (Reg_Ptr r); by repeat split.
Qed.

(** ** Rendering registers *)

Section RegStringProperties.
Context {ArchReg : Type}.
Variable ArchRegs : list ArchReg.
Variable ArchRegNames : ArchReg → string.

Lemma Reg_String_panic_cases (r : Reg) :
  (is_panic (Reg_String ArchRegs ArchRegNames r)
   ↔ Reg_kind r = _K_arch ∧ Z.of_nat (length ArchRegs) ≤ Reg_Index r)
  ∧ (is_panic (Reg_String ArchRegs ArchRegNames r) →
     Reg_String ArchRegs ArchRegNames r
     = Panic ("invalid arch-specific register index: " +:+ fmt_d (Reg_Index r))).
Proof.
  unfold Reg_String.
  destruct (Z.eqb_spec (Reg_kind r) _K_arch) as [Harch | Harch].
  - destruct (Z.leb_spec (Z.of_nat (length ArchRegs)) (Reg_Index r)) as [Hout | Hin].
    + split; [| intros _; reflexivity]. split; [intros _; by split | intros _; exact I].
    + pose proof (Reg_Index_range r) as [Hge _].
      destruct (lookup_lt_is_Some_2 ArchRegs (Z.to_nat (Reg_Index r))) as [a ->]; [lia |].
      split; [| intros []]. split; [intros [] | lia].
  - assert (∀ s1 s2 : string, ¬ is_panic (if Reg_Ptr r then Ok s1 else Ok s2)) as Hok.
    { intros s1 s2. destruct (Reg_Ptr r); intros []. }
    destruct (Reg_kind r =? _K_zero); [| destruct (Reg_kind r =? _K_temp);
      [| destruct (Reg_kind r =? _K_norm)]].
    all: split; [split; [intros Hp; by apply Hok in Hp | intros [? _]; done]
                | intros Hp; by apply Hok in Hp].
Qed.

(** X6: [String] panics on one kind of register only: an
    architecture-specific register whose index lies outside the table
    [ArchRegs].  The message carries the index; every other register,
    whatever its kind, is rendered. *)
Theorem Reg_String_panics_iff (r : Reg) :
  (is_panic (Reg_String ArchRegs ArchRegNames r)
   ↔ Reg_kind r = _K_arch ∧ Z.of_nat (length ArchRegs) ≤ Reg_Index r)
  ∧ (is_panic (Reg_String ArchRegs ArchRegNames r) →
     Reg_String ArchRegs ArchRegNames r
     = Panic ("invalid arch-specific register index: " +:+ fmt_d (Reg_Index r))).
Proof. apply Reg_String_panic_cases. Qed.

Lemma Reg_String_norm_form (r : Reg) :
  Reg_kind r = _K_norm →
  Reg_String ArchRegs ArchRegNames r
  = Ok ((if Reg_Ptr r then "%p" else "%r") +:+ fmt_d (Reg_Index r)).
Proof. intros Hk. unfold Reg_String. rewrite Hk. by destruct (Reg_Ptr r). Qed.

Lemma Reg_String_temp_form (r : Reg) :
  Reg_kind r = _K_temp →
  Reg_String ArchRegs ArchRegNames r
  = Ok ((if Reg_Ptr r then "%tp" else "%tr") +:+ fmt_d (Reg_Index r)).
Proof. intros Hk. unfold Reg_String. rewrite Hk. by destruct (Reg_Ptr r). Qed.

(** X7: the text of a normalized register names it.  Two 64-bit words of
    the SSA-normalized kind, or two of the temporary kind, that render to
    the same text are the same register. *)
Theorem Reg_String_names_register (r1 r2 : Reg) :
  0 ≤ r1 < 2 ^ 64 →
  0 ≤ r2 < 2 ^ 64 →
  Reg_kind r1 = Reg_kind r2 →
  Reg_kind r1 = _K_norm ∨ Reg_kind r1 = _K_temp →
  Reg_String ArchRegs ArchRegNames r1 = Reg_String ArchRegs ArchRegNames r2 →
  r1 = r2.
Proof.
  intros Hr1 Hr2 Hkind Hk Hstr.
  apply Reg_fields_determine_word_parts; try done.
  destruct Hk as [Hk | Hk].
  - rewrite !Reg_String_norm_form in Hstr by congruence.
    injection Hstr as Hstr.
    destruct (Reg_Ptr r1), (Reg_Ptr r2); cbn [String.append] in Hstr;
      try discriminate Hstr; injection Hstr as Hi; unfold fmt_d in Hi;
      (split; [reflexivity | by apply (inj (@pretty Z _))]).
  - rewrite !Reg_String_temp_form in Hstr by congruence.
    injection Hstr as Hstr.
    destruct (Reg_Ptr r1), (Reg_Ptr r2); cbn [String.append] in Hstr;
      try discriminate Hstr; injection Hstr as Hi; unfold fmt_d in Hi;
      (split; [reflexivity | by apply (inj (@pretty Z _))]).
Qed.
End RegStringProperties.

(** The statement of [Reg_String_names_register] at two ways of building
    the normalized register 7. *)
Lemma Reg_String_names_register_witness :
  Reg_normalize Rz 7 = Reg_rename (Reg_normalize Tr 1) 7.
Proof.
  apply (Reg_String_names_register (@nil unit) (λ _, "")).
  - apply Reg_normalize_word.
  - apply Reg_rename_word.
  - reflexivity.
  - by left.
  - reflexivity.
Defined.

(** ** Registers of the front end *)

(** [hir.Register] is an interface of the [hir] package with the two
    implementations [hir.GenericRegister] and [hir.PointerRegister]; [Rv]
    converts either with [uint64(r)], so both are integers here.
    [OtherRegister] stands for any other value of the interface, [nil]
    included. *)
Inductive hir_Register : Type :=
  | GenericRegister (r : Z)
  | PointerRegister (r : Z)
  | OtherRegister.

Definition hir_is_pointer (reg : hir_Register) : bool :=
  match reg with
  | PointerRegister _ => true
  | _ => false
  end.

Section Rv.
(** The constants [hir.Rz] and [hir.Pn], declared in the [hir] package. *)
Variable hir_Rz : Z.
Variable hir_Pn : Z.

Definition Rv (reg : hir_Register) : result Reg :=
  match reg with
  | GenericRegister r => if r =? hir_Rz then Ok Rz else mkreg 0 (uint64 r)
  | PointerRegister r => if r =? hir_Pn then Ok Pn else mkreg 1 (uint64 r)
  | OtherRegister => Panic "unreachable"
  end.
End Rv.

(** X8: for a generic kind, [mkreg] builds the word with that kind and
    index 0, and reads the lowest bit of [ptr] only: the register is a
    pointer register exactly when [ptr] is odd. *)
Theorem mkreg_fields (ptr kind : Z) :
  0 ≤ kind ≤ _K_max →
  ∃ w, mkreg ptr kind = Ok w
       ∧ 0 ≤ w < 2 ^ 64
       ∧ Reg_Ptr w = Z.odd ptr
       ∧ Reg_kind w = kind
       ∧ Reg_Index w = 0.
Proof.
  intros Hk. exists (reg_bits ptr kind).
  split; [apply mkreg_generic; lia |]. split; [apply reg_bits_word |].
  by apply reg_bits_fields.
Qed.

Lemma mkreg_fields_witness :
  ∃ w, mkreg 6 3 = Ok w ∧ 0 ≤ w < 2 ^ 64
       ∧ Reg_Ptr w = Z.odd 6 ∧ Reg_kind w = 3 ∧ Reg_Index w = 0.
Proof. apply mkreg_fields. by vm_compute. Defined.

(** The front-end registers [Rv] is meant for: the values of the two
    8-bit register types. *)
Definition hir_valid (reg : hir_Register) : Prop :=
  match reg with
  | GenericRegister r | PointerRegister r => 0 ≤ r < 2 ^ 8
  | OtherRegister => False
  end.

Section RvProperties.
Variable hir_Rz : Z.
Variable hir_Pn : Z.

Lemma uint64_small (r : Z) : 0 ≤ r < 2 ^ 8 → uint64 r = r.
Proof. intros Hr. unfold uint64. apply Z.mod_small. lia. Qed.

Lemma Rv_Ok_fields (reg : hir_Register) (w : Reg) :
  Rv hir_Rz hir_Pn reg = Ok w →
  0 ≤ w < 2 ^ 64
  ∧ Reg_Index w = 0
  ∧ Reg_Ptr w = hir_is_pointer reg
  ∧ match reg with
    | GenericRegister r => if r =? hir_Rz then Reg_kind w = _K_zero
                           else Reg_kind w = uint64 r ∧ uint64 r ≤ _K_max
    | PointerRegister r => if r =? hir_Pn then Reg_kind w = _K_zero
                           else Reg_kind w = uint64 r ∧ uint64 r ≤ _K_max
    | OtherRegister => False
    end.
Proof.
  assert (∀ p r, mkreg p (uint64 r) = Ok w →
                 0 ≤ w < 2 ^ 64 ∧ Reg_Index w = 0 ∧ Reg_Ptr w = Z.odd p
                 ∧ Reg_kind w = uint64 r ∧ uint64 r ≤ _K_max) as Hmk.
  { intros p r Hrun.
    assert (0 ≤ uint64 r) by (unfold uint64; apply Z.mod_pos_bound; done).
    destruct (Z.lt_ge_cases _K_max (uint64 r)) as [Hgt | Hle].
    - rewrite mkreg_invalid in Hrun by done. discriminate Hrun.
    - rewrite mkreg_generic in Hrun by done. injection Hrun as <-.
      destruct (reg_bits_fields p (uint64 r)) as (? & ? & ?); [done |].
      split; [apply reg_bits_word | done]. }
  destruct reg as [r | r |]; cbn [Rv hir_is_pointer].
  - destruct (r =? hir_Rz); cbv iota.
    + intros [= <-]. by repeat split.
    + intros Hrun. destruct (Hmk 0 r Hrun) as ([? ?] & ? & Hp & ? & ?).
      change (Z.odd 0) with false in Hp. by repeat split.
  - destruct (r =? hir_Pn); cbv iota.
    + intros [= <-]. by repeat split.
    + intros Hrun. destruct (Hmk 1 r Hrun) as ([? ?] & ? & Hp & ? & ?).
      change (Z.odd 1) with true in Hp. by repeat split.
  - discriminate.
Qed.

(** X9: whatever [Rv] returns is a generic or a zero register with index
    0: never an architecture-specific, temporary or normalized one.  It is
    a pointer register exactly for a [hir.PointerRegister], and it has the
    zero kind exactly for the two zero registers [hir.Rz] and [hir.Pn]. *)
Theorem Rv_result (reg : hir_Register) (w : Reg) :
  Rv hir_Rz hir_Pn reg = Ok w →
  Reg_Index w = 0
  ∧ Reg_Ptr w = hir_is_pointer reg
  ∧ (Reg_kind w = _K_zero ∨ 0 ≤ Reg_kind w ≤ _K_max)
  ∧ (Reg_kind w = _K_zero ↔ reg = GenericRegister hir_Rz ∨ reg = PointerRegister hir_Pn).
Proof.
  intros Hrun. destruct (Rv_Ok_fields reg w Hrun) as (_ & Hi & Hp & Hk).
  pose proof (Reg_kind_range w) as [Hk0 _].
  split; [done |]. split; [done |].
  destruct reg as [r | r |]; [| | done].
  - destruct (Z.eqb_spec r hir_Rz) as [-> | Hne].
    + split; [by left |]. split; [by left | done].
    + destruct Hk as [Hk Hmax]. split; [right; lia |]. split.
      * unfold _K_zero, _K_max in *. lia.
      * intros [[= ->] | [=]]. done.
  - destruct (Z.eqb_spec r hir_Pn) as [-> | Hne].
    + split; [by left |]. split; [by right | done].
    + destruct Hk as [Hk Hmax]. split; [right; lia |]. split.
      * unfold _K_zero, _K_max in *. lia.
      * intros [[=] | [= ->]]. done.
Qed.

(** X10: [Rv] keeps front-end registers apart: two registers of the 8-bit
    register types that it maps to the same word are the same register. *)
Theorem Rv_injective (reg1 reg2 : hir_Register) (w : Reg) :
  hir_valid reg1 →
  hir_valid reg2 →
  Rv hir_Rz hir_Pn reg1 = Ok w →
  Rv hir_Rz hir_Pn reg2 = Ok w →
  reg1 = reg2.
Proof.
  intros Hv1 Hv2 Hrun1 Hrun2.
  destruct (Rv_Ok_fields reg1 w Hrun1) as (_ & _ & Hp1 & Hk1).
  destruct (Rv_Ok_fields reg2 w Hrun2) as (_ & _ & Hp2 & Hk2).
  rewrite Hp1 in Hp2.
  destruct reg1 as [r1 | r1 |], reg2 as [r2 | r2 |]; try done; cbn [hir_valid] in Hv1, Hv2;
    f_equal.
  - destruct (Z.eqb_spec r1 hir_Rz) as [-> | Hne1], (Z.eqb_spec r2 hir_Rz) as [-> | Hne2];
      try done; rewrite ?(uint64_small r1), ?(uint64_small r2) in * by done;
      unfold _K_zero, _K_max in *; lia.
  - destruct (Z.eqb_spec r1 hir_Pn) as [-> | Hne1], (Z.eqb_spec r2 hir_Pn) as [-> | Hne2];
      try done; rewrite ?(uint64_small r1), ?(uint64_small r2) in * by done;
      unfold _K_zero, _K_max in *; lia.
Qed.
End RvProperties.

Lemma Rv_result_witness :
  Reg_Index Pn = 0
  ∧ Reg_Ptr Pn = true
  ∧ (Reg_kind Pn = _K_zero ∨ 0 ≤ Reg_kind Pn ≤ _K_max)
  ∧ (Reg_kind Pn = _K_zero ↔ PointerRegister 6 = GenericRegister 6 ∨ PointerRegister 6 = PointerRegister 6).
Proof. apply (Rv_result 6 6 (PointerRegister 6) Pn). reflexivity. Defined.

Lemma Rv_injective_witness : GenericRegister 2 = GenericRegister 2.
Proof.
  apply (Rv_injective 6 6 (GenericRegister 2) (GenericRegister 2) (reg_bits 0 2)).
  - by vm_compute.
  - by vm_compute.
  - reflexivity.
  - reflexivity.
Defined.

(** ** The successor iterator before and after the sequence *)



Section IteratorProperties.
Context `{GoSort}.


Section Rendering.
Context {ArchReg : Type}.
Variable ArchRegs : list ArchReg.
Variable ArchRegNames : ArchReg → string.
Variable blk : BlockRef → BasicBlock.

(** X12: the text of a switch does not depend on the order in which the
    branch map is visited: two renderings of the same switch agree. *)
Theorem IrSwitch_String_order_independent
    (self : IrSwitch.ty) (order order' : list (Z * BlockRef)) :
  order ≡ₚ map_to_list (IrSwitch.Br self) →
  order' ≡ₚ map_to_list (IrSwitch.Br self) →
  IrSwitch.String ArchRegs ArchRegNames blk self order
  = IrSwitch.String ArchRegs ArchRegNames blk self order'.
Proof.
  intros Horder Horder'. unfold IrSwitch.String.
  destruct (IrSwitch_iter_run self order Horder) as (branches & -> & Hperm & Hsorted).
  destruct (IrSwitch_iter_run self order' Horder') as (branches' & -> & Hperm' & Hsorted').
  by rewrite (sorted_branches_unique (IrSwitch.Br self) branches' branches).
Qed.
End Rendering.
End IteratorProperties.


Lemma IrSwitch_String_order_independent_witness :
  IrSwitch.String (H := insertion_GoSort) (@nil unit) (λ _, "") blocks_by_address switch_5_1
    (map_to_list (IrSwitch.Br switch_5_1))
  = IrSwitch.String (H := insertion_GoSort) (@nil unit) (λ _, "") blocks_by_address switch_5_1
      (reverse (map_to_list (IrSwitch.Br switch_5_1))).
Proof.
  apply IrSwitch_String_order_independent.
  - reflexivity.
  - apply reverse_Permutation.
Defined.

(** ** Return terminators *)

(** The successors of a return: none. *)
Module _EmptySuccessor.
Definition Next : bool := false.
Definition Block : option BlockRef := None.
Definition Value : Z * bool := (0, false).
End _EmptySuccessor.

Module IrReturn.
Record ty : Type := { R : list Reg }.

Section Methods.
Context {ArchReg : Type}.
Variable ArchRegs : list ArchReg.
Variable ArchRegNames : ArchReg → string.

(** Every register is rendered by a direct call of its [String] method: a
    panic there is a panic here. *)
Definition String (self : ty) : result string :=
  ret ← mapM (Reg_String ArchRegs ArchRegNames) (R self);
  Ok ("ret {" +:+ strings_Join ret ", " +:+ "}").
End Methods.

Definition Usages (self : NodeRef) (node : ty) : list RegRef :=
  regsliceref self "R" (R node).
End IrReturn.

Lemma mapM_result_Ok {A B} (f : A → result B) (l : list A) (ys : list B) :
  mapM f l = Ok ys ↔ Forall2 (λ x y, f x = Ok y) l ys.
Proof.
  revert ys. induction l as [| x l IH]; intros ys; csimpl.
  - split; [intros [= <-]; constructor | intros Hall; by inv Hall].
  - destruct (f x) as [y | msg] eqn:Hfx; csimpl.
    + destruct (mapM f l) as [ys' | msg] eqn:Hl; csimpl.
      * split.
        -- intros [= <-]. constructor; [done | by apply IH].
        -- intros Hall. inv Hall. f_equal.
           match goal with Hy : f x = Ok _ |- _ => rewrite Hfx in Hy; injection Hy as <- end.
           f_equal. match goal with Hr : Forall2 _ l _ |- _ => apply IH in Hr; by injection Hr end.
      * split; [discriminate |]. intros Hall. inv Hall.
        match goal with Hr : Forall2 _ l _ |- _ => apply IH in Hr; discriminate Hr end.
    + split; [discriminate |]. intros Hall. inv Hall. congruence.
Qed.

Lemma mapM_result_is_panic {A B} (f : A → result B) (l : list A) :
  is_panic (mapM f l) ↔ ∃ x, x ∈ l ∧ is_panic (f x).
Proof.
  induction l as [| x l IH]; csimpl.
  - split; [intros [] | intros (x & Hx & _); by apply elem_of_nil in Hx].
  - destruct (f x) as [y | msg] eqn:Hfx; csimpl.
    + destruct (mapM f l) as [ys | msg] eqn:Hl; csimpl.
      * split; [intros [] |]. intros (x' & Hx' & Hp).
        apply elem_of_cons in Hx' as [-> | Hx']; [by rewrite Hfx in Hp |].
        apply IH. by exists x'.
      * split; [| intros _; exact I]. intros _.
        destruct (proj1 IH I) as (x' & Hx' & Hp). exists x'. split; [by right | done].
    + split; [| intros _; exact I]. intros _. exists x. split; [by left |].
      by rewrite Hfx.
Qed.

Section ReturnCallProperties.
Context {ArchReg : Type}.
Variable ArchRegs : list ArchReg.
Variable ArchRegNames : ArchReg → string.
Variable CallHandle_String : CallHandle → string.

(** The register cannot be rendered: it is an architecture-specific
    register whose index lies outside the table. *)
Definition unrenderable (r : Reg) : Prop :=
  Reg_kind r = _K_arch ∧ Z.of_nat (length ArchRegs) ≤ Reg_Index r.

Lemma mapM_Reg_String_is_panic (regs : list Reg) :
  is_panic (mapM (Reg_String ArchRegs ArchRegNames) regs) ↔ ∃ r, r ∈ regs ∧ unrenderable r.
Proof.
  rewrite mapM_result_is_panic. split; intros (r & Hr & Hp); exists r; (split; [done |]).
  - exact (proj1 (proj1 (Reg_String_panic_cases ArchRegs ArchRegNames r)) Hp).
  - exact (proj2 (proj1 (Reg_String_panic_cases ArchRegs ArchRegNames r)) Hp).
Qed.

(** X13: rendering a return panics exactly when one of the returned
    registers cannot be rendered; otherwise the text is [ret {...}] with
    the registers in order, separated by a comma and a space, and [ret {}]
    for a return without values. *)
Theorem IrReturn_String_panics_iff (node : IrReturn.ty) :
  (is_panic (IrReturn.String ArchRegs ArchRegNames node)
   ↔ ∃ r, r ∈ IrReturn.R node ∧ unrenderable r)
  ∧ (∀ texts,
       Forall2 (λ r s, Reg_String ArchRegs ArchRegNames r = Ok s) (IrReturn.R node) texts →
       IrReturn.String ArchRegs ArchRegNames node
       = Ok ("ret {" +:+ strings_Join texts ", " +:+ "}"))
  ∧ (IrReturn.R node = [] → IrReturn.String ArchRegs ArchRegNames node = Ok "ret {}").
Proof.
  unfold IrReturn.String. split; [| split].
  - rewrite <- mapM_Reg_String_is_panic.
    by destruct (mapM (Reg_String ArchRegs ArchRegNames) (IrReturn.R node)).
  - intros texts Htexts. apply mapM_result_Ok in Htexts. by rewrite Htexts.
  - by intros ->.
Qed.

(** X14: rendering a call returns a text exactly when the receiver fits
    the call kind, the call kind is one of the three known ones, and every
    input and output register can be rendered.  A receiver register that
    cannot be rendered is no obstacle: it is printed through [fmt], which
    recovers. *)
Theorem IrCall_String_Ok_iff (c : IrCall.ty) :
  (∃ s, IrCall.String ArchRegs ArchRegNames CallHandle_String c = Ok s)
  ↔ ¬ receiver_mismatch c
    ∧ (∀ raw, Type_ (IrCall.Fn c) ≠ OtherCall raw)
    ∧ ∀ r, r ∈ IrCall.In c ++ IrCall.Out c → ¬ unrenderable r.
Proof.
  assert (∀ regs, (∀ r, r ∈ regs → ¬ unrenderable r)
                  ↔ ∃ texts, mapM (Reg_String ArchRegs ArchRegNames) regs = Ok texts) as Hregs.
  { intros regs. split.
    - intros Hall. destruct (mapM _ regs) as [texts | msg] eqn:Hrun; [by exists texts |].
      destruct (proj1 (mapM_Reg_String_is_panic regs)) as (r & Hr & Hbad);
        [by rewrite Hrun |]. by destruct (Hall r Hr).
    - intros [texts Hrun] r Hr Hbad.
      assert (is_panic (mapM (Reg_String ArchRegs ArchRegNames) regs)) as Hp.
      { apply mapM_Reg_String_is_panic. by exists r. }
      by rewrite Hrun in Hp. }
  assert (¬ receiver_mismatch c
          ↔ bool_decide (IrCall.Rx c = None) ≠ bool_decide (Type_ (IrCall.Fn c) = ICall))
    as Hcheck.
  { unfold receiver_mismatch.
    destruct (decide (IrCall.Rx c = None)) as [Hrx | Hrx],
             (decide (Type_ (IrCall.Fn c) = ICall)) as [Hty | Hty].
    - rewrite !bool_decide_eq_true_2 by done. split; [intros Hn; destruct Hn; by left | done].
    - rewrite (bool_decide_eq_true_2 _ Hrx), (bool_decide_eq_false_2 _ Hty).
      split; [done | intros _ [[_ ?] | [? _]]; done].
    - rewrite (bool_decide_eq_false_2 _ Hrx), (bool_decide_eq_true_2 _ Hty).
      split; [done | intros _ [[? _] | [_ ?]]; done].
    - rewrite !bool_decide_eq_false_2 by done. split; [intros Hn; destruct Hn; by right | done]. }
  rewrite Hcheck.
  assert ((∀ r, r ∈ IrCall.In c ++ IrCall.Out c → ¬ unrenderable r)
          ↔ (∃ ins, mapM (Reg_String ArchRegs ArchRegNames) (IrCall.In c) = Ok ins)
            ∧ (∃ outs, mapM (Reg_String ArchRegs ArchRegNames) (IrCall.Out c) = Ok outs))
    as ->.
  { rewrite <- !Hregs. split.
    - intros Hall. split; intros r Hr; apply Hall, elem_of_app; [by left | by right].
    - intros [Hin Hout] r Hr. apply elem_of_app in Hr as [Hr | Hr]; [by apply Hin | by apply Hout]. }
  unfold IrCall.String.
  destruct (decide (bool_decide (IrCall.Rx c = None)
                    = bool_decide (Type_ (IrCall.Fn c) = ICall))) as [Heq | Hne].
  { rewrite (bool_decide_eq_true_2 _ Heq).
    split; [intros [s Hs]; discriminate Hs | intros [Hn _]; done]. }
  rewrite (bool_decide_eq_false_2 _ Hne).
  destruct (Type_ (IrCall.Fn c)) as [| | | raw].
  4: { rewrite result_bind_Panic.
       split; [intros [s Hs]; discriminate Hs | intros (_ & Hty & _); by destruct (Hty raw)]. }
  all: rewrite result_bind_Ok.
  all: destruct (mapM _ (IrCall.In c)) as [ins | msg] eqn:Hin;
    [rewrite result_bind_Ok
    | rewrite result_bind_Panic;
      split; [intros [s Hs]; discriminate Hs | intros (_ & _ & [[ins Hins] _]); discriminate Hins]].
  all: destruct (mapM _ (IrCall.Out c)) as [outs | msg] eqn:Hout;
    [rewrite result_bind_Ok
    | rewrite result_bind_Panic;
      split; [intros [s Hs]; discriminate Hs | intros (_ & _ & [_ [outs Houts]]); discriminate Houts]].
  all: split; [intros _; split; [done |]; split; [discriminate | eauto]
              | intros _; destruct (bool_decide (length outs = 0%nat)); eauto].
Qed.
End ReturnCallProperties.

Example IrReturn_String_two :
  IrReturn.String (@nil unit) (λ _, "") {| IrReturn.R := [Reg_normalize Rz 1; Pn] |}
  = Ok "ret {%r1, nil}".
Proof. by vm_compute. Qed.

Example IrCall_String_bad_receiver_register :
  let arch0 := Z.shiftl _K_arch _B_kind in
  IrCall.String (@nil unit) (λ _, "") (λ _, "fn")
    {| IrCall.Fn := {| Type_ := ICall; Slot := 1 |};
       IrCall.Rx := Some {| IrReceiver.T := arch0; IrReceiver.V := Pn |};
       IrCall.In := []; IrCall.Out := [] |}
  = Ok "icall #1, {%!s(PANIC=String method: invalid arch-specific register index: 0), nil}, {}".
Proof. by vm_compute. Qed.

(** ** Rendering phi nodes *)

(** The letter phi, two bytes in UTF-8. *)
Definition phi_sign : string :=
  String (Ascii.ascii_of_nat 207) (String (Ascii.ascii_of_nat 134) EmptyString).

Section PhiString.
Context `{GoSort}.
Context {ArchReg : Type}.
Variable ArchRegs : list ArchReg.
Variable ArchRegNames : ArchReg → string.
Variable blk : BlockRef → BasicBlock.
(** The register store: the register each non-nil register pointer
    refers to. *)
Variable mem : RegRef → Reg.

(** The closure handed to [sort.Slice]: [phi[i].int < phi[j].int]. *)
Definition IrPhi_String_less (phi : list (Z * Reg)) (i j : nat) : result bool :=
  pi ← index phi i;
  pj ← index phi j;
  Ok (bool_decide (pi.1 < pj.1)).

(** [IrPhi.String]; [order] is the order in which [range self.V] happens
    to visit the entries of the map. *)
Definition IrPhi_String (self : IrPhi.ty) (order : list (BlockRef * RegRef)) : result string :=
  let phi := foldl (λ phi '(bb, reg), phi ++ [(Id (blk bb), mem reg)]) [] order in
  phi ← sort_Slice phi IrPhi_String_less;
  let ret := foldl (λ ret p, ret ++ ["bb_" +:+ fmt_d p.1 +:+ ": "
                                     +:+ fmt_s (Reg_String ArchRegs ArchRegNames p.2)])
                   [] phi in
  Ok (fmt_s (Reg_String ArchRegs ArchRegNames (IrPhi.R self)) +:+ " = " +:+ phi_sign +:+ "("
      +:+ strings_Join ret ", " +:+ ")").

(** One source of a rendered phi node. *)
Definition phi_entry (p : Z * Reg) : string :=
  "bb_" +:+ fmt_d p.1 +:+ ": " +:+ fmt_s (Reg_String ArchRegs ArchRegNames p.2).

Lemma phi_string_collect (order : list (BlockRef * RegRef)) (phi0 : list (Z * Reg)) :
  foldl (λ phi '(bb, reg), phi ++ [(Id (blk bb), mem reg)]) phi0 order
  = phi0 ++ ((λ e, (Id (blk e.1), mem e.2)) <$> order).
Proof.
  revert phi0. induction order as [| [bb reg] order IH]; intros phi0; csimpl.
  - by rewrite app_nil_r.
  - rewrite IH. by rewrite <- app_assoc.
Qed.

Lemma phi_string_entries (phi : list (Z * Reg)) (ret0 : list string) :
  foldl (λ ret p, ret ++ ["bb_" +:+ fmt_d p.1 +:+ ": "
                          +:+ fmt_s (Reg_String ArchRegs ArchRegNames p.2)]) ret0 phi
  = ret0 ++ (phi_entry <$> phi).
Proof.
  revert ret0. induction phi as [| p phi IH]; intros ret0.
  - cbn [foldl]. by rewrite fmap_nil, app_nil_r.
  - cbn [foldl]. rewrite IH, fmap_cons, <- app_assoc. reflexivity.
Qed.

(** X15: the text of a phi node lists its sources in the order of
    [Usages].  With predecessor blocks of pairwise distinct identifiers,
    whatever the orders in which the two methods visit the map, there is
    one arrangement of the entries of the map, by strictly ascending
    identifier of the block: [Usages] returns the register locations of the
    entries in that arrangement, and the text is
    [<R> = phi(bb_<id>: <reg>, ...)] with, for each entry in the same
    arrangement, the identifier of its block and the register its location
    holds. *)
Theorem IrPhi_String_follows_Usages
    (self : IrPhi.ty) (order order' : list (BlockRef * RegRef)) :
  distinct_block_ids blk self →
  order ≡ₚ map_to_list (IrPhi.V self) →
  order' ≡ₚ map_to_list (IrPhi.V self) →
  ∃ entries : list (BlockRef * RegRef),
    entries ≡ₚ map_to_list (IrPhi.V self)
    ∧ StronglySorted Z.lt ((λ e, Id (blk e.1)) <$> entries)
    ∧ IrPhi.Usages blk self order = Ok (entries.*2)
    ∧ IrPhi_String self order'
      = Ok (fmt_s (Reg_String ArchRegs ArchRegNames (IrPhi.R self)) +:+ " = " +:+ phi_sign
            +:+ "("
            +:+ strings_Join
                  ((λ e, "bb_" +:+ fmt_d (Id (blk e.1)) +:+ ": "
                         +:+ fmt_s (Reg_String ArchRegs ArchRegNames (mem e.2))) <$> entries)
                  ", "
            +:+ ")").
Proof.
  intros Hdistinct Horder Horder'.
  destruct (IrPhi_Usages_run blk self order Horder) as (ks & us & Hrun & Hlen & Hperm & Hasc).
  unfold phi_sources in Hperm.
  destruct (Permutation_map_inv (λ e : BlockRef * RegRef, (Id (blk e.1), e.2)) _ Hperm)
    as (entries & Hzip & Hentries).
  change (zip ks us = (λ e : BlockRef * RegRef, (Id (blk e.1), e.2)) <$> entries) in Hzip.
  assert (us = entries.*2) as Hus.
  { rewrite <- (snd_zip ks us) by lia. rewrite Hzip, <- list_fmap_compose.
    by apply list_fmap_ext. }
  assert (NoDup ((zip ks us).*1)) as Hnodup.
  { rewrite Hperm. by apply phi_sources_NoDup. }
  exists entries. split; [by symmetry |]. split.
  { rewrite (list_fmap_ext (λ e, Id (blk e.1)) (fst ∘ (λ e, (Id (blk e.1), e.2))) entries)
      by done.
    rewrite list_fmap_compose, <- Hzip. by apply ascending_keys_strict. }
  split; [by rewrite <- Hus |].
  unfold IrPhi_String. rewrite phi_string_collect, app_nil_l.
  destruct (sort_Sort_sorts _ _ (lessSwap IrPhi_String_less) _ _ _
              (lessSwap_slice_like fst IrPhi_String_less ltac:(done))
              ((λ e, (Id (blk e.1), mem e.2)) <$> order') I)
    as (sorted & Hsort & _ & Hsperm & Hsasc).
  unfold sort_Slice. rewrite Hsort, result_bind_Ok, phi_string_entries, app_nil_l.
  assert (sorted = (λ p, (p.1, mem p.2)) <$> zip ks us) as ->.
  { apply (ascending_unique fst).
    - rewrite Hsperm, Horder', <- list_fmap_compose.
      rewrite (list_fmap_ext _ (fst ∘ (λ e, (Id (blk e.1), e.2))) (map_to_list (IrPhi.V self)))
        by done.
      rewrite list_fmap_compose. by apply phi_sources_NoDup.
    - done.
    - unfold ascending in *. eapply Sorted_fmap; [| exact Hasc]. done.
    - rewrite Hsperm, Hperm, Horder'.
      rewrite <- list_fmap_compose.
      by rewrite (list_fmap_ext _ ((λ p, (p.1, mem p.2)) ∘ (λ e, (Id (blk e.1), e.2)))
                    (map_to_list (IrPhi.V self))) by done. }
  assert (phi_entry <$> ((λ p : Z * RegRef, (p.1, mem p.2))
                         <$> ((λ e : BlockRef * RegRef, (Id (blk e.1), e.2)) <$> entries))
          = (λ e, "bb_" +:+ fmt_d (Id (blk e.1)) +:+ ": "
                  +:+ fmt_s (Reg_String ArchRegs ArchRegNames (mem e.2))) <$> entries)
    as Htexts.
  { rewrite <- !list_fmap_compose. apply list_fmap_ext. intros e. reflexivity. }
  rewrite Hzip, Htexts. reflexivity.
Qed.
End PhiString.

Example phi_3_1_2_String :
  IrPhi_String (H := insertion_GoSort) (@nil unit) (λ _, "") blocks_by_address
    (λ p, match p with VarRef a => Reg_normalize Rz (Z.pos a) | _ => Rz end)
    phi_3_1_2
    [(2%positive, VarRef 22); (3%positive, VarRef 33); (1%positive, VarRef 11)]
  = Ok ("%r0 = " +:+ phi_sign +:+ "(bb_1: %r11, bb_2: %r22, bb_3: %r33)").
Proof. by vm_compute. Qed.

(** The phi node over the blocks 3, 1 and 2, each location holding the
    normalized register numbered like its address. *)
Lemma IrPhi_String_follows_Usages_witness :
  ∃ entries : list (BlockRef * RegRef),
    entries ≡ₚ map_to_list (IrPhi.V phi_3_1_2)
    ∧ StronglySorted Z.lt ((λ e, Id (blocks_by_address e.1)) <$> entries)
    ∧ IrPhi.Usages (H := insertion_GoSort) blocks_by_address phi_3_1_2
        (map_to_list (IrPhi.V phi_3_1_2)) = Ok (entries.*2)
    ∧ IrPhi_String (H := insertion_GoSort) (@nil unit) (λ _, "") blocks_by_address
        (λ p, match p with VarRef a => Reg_normalize Rz (Z.pos a) | _ => Rz end)
        phi_3_1_2 (reverse (map_to_list (IrPhi.V phi_3_1_2)))
      = Ok (fmt_s (Reg_String (@nil unit) (λ _, "") (IrPhi.R phi_3_1_2)) +:+ " = " +:+ phi_sign
            +:+ "("
            +:+ strings_Join
                  ((λ e, "bb_" +:+ fmt_d (Id (blocks_by_address e.1)) +:+ ": "
                         +:+ fmt_s (Reg_String (@nil unit) (λ _, "")
                                      (match e.2 with
                                       | VarRef a => Reg_normalize Rz (Z.pos a)
                                       | _ => Rz
                                       end))) <$> entries)
                  ", "
            +:+ ")").
Proof.
  apply (IrPhi_String_follows_Usages (H := insertion_GoSort) (@nil unit) (λ _, "")
           blocks_by_address
           (λ p, match p with VarRef a => Reg_normalize Rz (Z.pos a) | _ => Rz end)).
  - intros b1 b2 _ _ Hid. by injection Hid.
  - reflexivity.
  - apply reverse_Permutation.
Defined.

(** ** The remaining instructions *)

(** [uint8] arithmetic wraps around at 256. *)
Definition uint8 (z : Z) : Z := z mod 2 ^ 8.

(** [type IrUnaryOp uint8], its constants numbered by [iota]. *)
Definition IrUnaryOp : Type := Z.
Definition IrOpNegate : IrUnaryOp := 0.
Definition IrOpSwap16 : IrUnaryOp := 1.
Definition IrOpSwap32 : IrUnaryOp := 2.
Definition IrOpSwap64 : IrUnaryOp := 3.
Definition IrOpSx32to64 : IrUnaryOp := 4.

Definition IrUnaryOp_String (self : IrUnaryOp) : result string :=
  if self =? IrOpNegate then Ok "negate"
  else if self =? IrOpSwap16 then Ok "bswap16"
  else if self =? IrOpSwap32 then Ok "bswap32"
  else if self =? IrOpSwap64 then Ok "bswap64"
  else if self =? IrOpSx32to64 then Ok "sign_extend_32_to_64"
  else Panic "unreachable".

(** [IrBinaryOp.String]; the twelve constants are all the values
    [IrBinaryOp] has here, so the panicking default is never taken. *)
Definition IrBinaryOp_String (self : IrBinaryOp) : result string :=
  match self with
  | IrOpAdd => Ok "+"
  | IrOpSub => Ok "-"
  | IrOpMul => Ok "*"
  | IrOpAnd => Ok "&"
  | IrOpOr => Ok "|"
  | IrOpXor => Ok "^"
  | IrOpShr => Ok ">>"
  | IrCmpEq => Ok "=="
  | IrCmpNe => Ok "!="
  | IrCmpLt => Ok "<"
  | IrCmpLtu => Ok "<#"
  | IrCmpGeu => Ok ">=#"
  end.

Module IrLoad.
Record ty : Type := { R : Reg; Mem : Reg; Size : Z }.
Definition Usages (self : NodeRef) : list RegRef := [FieldRef self "Mem"].
Definition Definations (self : NodeRef) : list RegRef := [FieldRef self "R"].
End IrLoad.

Module IrStore.
Record ty : Type := { R : Reg; Mem : Reg; Size : Z }.
Definition Usages (self : NodeRef) : list RegRef := [FieldRef self "R"; FieldRef self "Mem"].
End IrStore.

Module IrLoadArg.
Record ty : Type := { R : Reg; Id : Z }.
Definition Definations (self : NodeRef) : list RegRef := [FieldRef self "R"].
End IrLoadArg.

Module IrConstInt.
Record ty : Type := { R : Reg; V : Z }.
Definition Definations (self : NodeRef) : list RegRef := [FieldRef self "R"].
End IrConstInt.

Module IrLEA.
Record ty : Type := { R : Reg; Mem : Reg; Off : Reg }.
Definition Usages (self : NodeRef) : list RegRef := [FieldRef self "Mem"; FieldRef self "Off"].
Definition Definations (self : NodeRef) : list RegRef := [FieldRef self "R"].
End IrLEA.

Module IrUnaryExpr.
Record ty : Type := { R : Reg; V : Reg; Op : IrUnaryOp }.
Definition Usages (self : NodeRef) : list RegRef := [FieldRef self "V"].
Definition Definations (self : NodeRef) : list RegRef := [FieldRef self "R"].
End IrUnaryExpr.

Module IrBitTestSet.
Record ty : Type := { T : Reg; S : Reg; X : Reg; Y : Reg }.
Definition Usages (self : NodeRef) : list RegRef := [FieldRef self "X"; FieldRef self "Y"].
Definition Definations (self : NodeRef) : list RegRef := [FieldRef self "T"; FieldRef self "S"].
End IrBitTestSet.

Module IrWriteBarrier.
Record ty : Type := { R : Reg; V : Reg }.
Definition Usages (self : NodeRef) : list RegRef := [FieldRef self "R"; FieldRef self "V"].
End IrWriteBarrier.

Section NodeStrings.
Context {ArchReg : Type}.
Variable ArchRegs : list ArchReg.
Variable ArchRegNames : ArchReg → string.

(** A register under [%s]. *)
Definition fmt_reg (r : Reg) : string := fmt_s (Reg_String ArchRegs ArchRegNames r).

Definition IrLoad_String (self : IrLoad.ty) : string :=
  if Reg_Ptr (IrLoad.R self) then
    fmt_reg (IrLoad.R self) +:+ " = load.ptr " +:+ fmt_reg (IrLoad.Mem self)
  else
    fmt_reg (IrLoad.R self) +:+ " = load.u" +:+ fmt_d (uint8 (IrLoad.Size self * 8))
      +:+ " " +:+ fmt_reg (IrLoad.Mem self).

Definition IrStore_String (self : IrStore.ty) : string :=
  if Reg_Ptr (IrStore.R self) then
    "store.ptr(" +:+ fmt_reg (IrStore.R self) +:+ " -> *" +:+ fmt_reg (IrStore.Mem self) +:+ ")"
  else
    "store.u" +:+ fmt_d (uint8 (IrStore.Size self * 8)) +:+ "(" +:+ fmt_reg (IrStore.R self)
      +:+ " -> *" +:+ fmt_reg (IrStore.Mem self) +:+ ")".

Definition IrLoadArg_String (self : IrLoadArg.ty) : string :=
  if Reg_Ptr (IrLoadArg.R self) then
    fmt_reg (IrLoadArg.R self) +:+ " = loadarg.ptr(#" +:+ fmt_d (IrLoadArg.Id self) +:+ ")"
  else
    fmt_reg (IrLoadArg.R self) +:+ " = loadarg.i64(#" +:+ fmt_d (IrLoadArg.Id self) +:+ ")".

Definition IrConstInt_String (self : IrConstInt.ty) : string :=
  fmt_reg (IrConstInt.R self) +:+ " = const.i64 " +:+ fmt_d (IrConstInt.V self).

Definition IrLEA_String (self : IrLEA.ty) : string :=
  fmt_reg (IrLEA.R self) +:+ " = &(" +:+ fmt_reg (IrLEA.Mem self) +:+ ")["
    +:+ fmt_reg (IrLEA.Off self) +:+ "]".

Definition IrUnaryExpr_String (self : IrUnaryExpr.ty) : string :=
  fmt_reg (IrUnaryExpr.R self) +:+ " = " +:+ fmt_s (IrUnaryOp_String (IrUnaryExpr.Op self))
    +:+ " " +:+ fmt_reg (IrUnaryExpr.V self).

Definition IrBinaryExpr_String (self : IrBinaryExpr.ty) : string :=
  fmt_reg (IrBinaryExpr.R self) +:+ " = " +:+ fmt_reg (IrBinaryExpr.X self) +:+ " "
    +:+ fmt_s (IrBinaryOp_String (IrBinaryExpr.Op self)) +:+ " " +:+ fmt_reg (IrBinaryExpr.Y self).

Definition IrBitTestSet_String (self : IrBitTestSet.ty) : string :=
  "t." +:+ fmt_reg (IrBitTestSet.T self) +:+ ", s." +:+ fmt_reg (IrBitTestSet.S self)
    +:+ " = bts " +:+ fmt_reg (IrBitTestSet.X self) +:+ ", " +:+ fmt_reg (IrBitTestSet.Y self).

Definition IrWriteBarrier_String (self : IrWriteBarrier.ty) : string :=
  "write_barrier(" +:+ fmt_reg (IrWriteBarrier.V self) +:+ " -> *"
    +:+ fmt_reg (IrWriteBarrier.R self) +:+ ")".

Definition IrBreakpoint_String : string := "breakpoint".
End NodeStrings.

(** ** Properties of the remaining instructions *)

(** X16: every binary operator has a symbol of its own, so the text of a
    binary expression tells which operator it applies. *)
Theorem IrBinaryOp_String_injective (op1 op2 : IrBinaryOp) :
  (∃ s, IrBinaryOp_String op1 = Ok s)
  ∧ (IrBinaryOp_String op1 = IrBinaryOp_String op2 → op1 = op2).
Proof.
  split; [destruct op1; eauto |].
  destruct op1, op2; intros Heq; try reflexivity; discriminate Heq.
Qed.

Lemma IrUnaryOp_String_cases (op : IrUnaryOp) :
  (op = IrOpNegate ∧ IrUnaryOp_String op = Ok "negate")
  ∨ (op = IrOpSwap16 ∧ IrUnaryOp_String op = Ok "bswap16")
  ∨ (op = IrOpSwap32 ∧ IrUnaryOp_String op = Ok "bswap32")
  ∨ (op = IrOpSwap64 ∧ IrUnaryOp_String op = Ok "bswap64")
  ∨ (op = IrOpSx32to64 ∧ IrUnaryOp_String op = Ok "sign_extend_32_to_64")
  ∨ (¬ (IrOpNegate ≤ op ≤ IrOpSx32to64) ∧ IrUnaryOp_String op = Panic "unreachable").
Proof.
  unfold IrUnaryOp_String, IrOpNegate, IrOpSwap16, IrOpSwap32, IrOpSwap64, IrOpSx32to64.
  destruct (Z.eqb_spec op 0); [by left |].
  destruct (Z.eqb_spec op 1); [right; by left |].
  destruct (Z.eqb_spec op 2); [do 2 right; by left |].
  destruct (Z.eqb_spec op 3); [do 3 right; by left |].
  destruct (Z.eqb_spec op 4); [do 4 right; by left |].
  do 5 right. split; [lia | done].
Qed.

(** X17: [IrUnaryOp.String] panics exactly on a value that is none of the
    five declared operators, and gives the five operators names of their
    own. *)
Theorem IrUnaryOp_String_panics_iff (op1 op2 : IrUnaryOp) :
  (is_panic (IrUnaryOp_String op1) ↔ ¬ (IrOpNegate ≤ op1 ≤ IrOpSx32to64))
  ∧ (is_panic (IrUnaryOp_String op1) → IrUnaryOp_String op1 = Panic "unreachable")
  ∧ (IrUnaryOp_String op1 = IrUnaryOp_String op2 →
     ¬ is_panic (IrUnaryOp_String op1) → op1 = op2).
Proof.
  destruct (IrUnaryOp_String_cases op1)
    as [[-> H1] | [[-> H1] | [[-> H1] | [[-> H1] | [[-> H1] | [Hbad H1]]]]]]; rewrite H1.
  6: { split; [split; [done | intros _; exact I] |]. split; [done |].
       intros _ Hok. by destruct Hok. }
  all: split; [split; [intros [] | intros Hbad; destruct Hbad; by vm_compute] |].
  all: split; [intros [] |].
  all: intros Heq _; symmetry in Heq.
  all: destruct (IrUnaryOp_String_cases op2)
    as [[-> H2] | [[-> H2] | [[-> H2] | [[-> H2] | [[-> H2] | [_ H2]]]]]];
    rewrite H2 in Heq; try reflexivity; discriminate Heq.
Qed.

Section NodeProperties.
Context {ArchReg : Type}.
Variable ArchRegs : list ArchReg.
Variable ArchRegNames : ArchReg → string.

Lemma fmt_reg_Rz : fmt_reg ArchRegs ArchRegNames Rz = "$0".
Proof. reflexivity. Qed.

(** X18: a copy renders as the addition of the non-pointer zero:
    [<r> = <v> + $0], also when the registers copied are pointers. *)
Theorem IrCopy_String (r v : Reg) :
  IrBinaryExpr_String ArchRegs ArchRegNames (IrCopy r v)
  = fmt_reg ArchRegs ArchRegNames r +:+ " = " +:+ fmt_reg ArchRegs ArchRegNames v +:+ " + $0".
Proof.
  unfold IrBinaryExpr_String, IrCopy.
  cbn [IrBinaryExpr.R IrBinaryExpr.X IrBinaryExpr.Y IrBinaryExpr.Op].
  rewrite fmt_reg_Rz. reflexivity.
Qed.

Lemma uint8_width_wraps (s : Z) : uint8 ((s + 32) * 8) = uint8 (s * 8).
Proof.
  unfold uint8. replace ((s + 32) * 8) with (s * 8 + 1 * 2 ^ 8) by lia.
  apply Z.mod_add. done.
Qed.

Lemma uint8_width_exact (s : Z) : 0 ≤ s < 32 → uint8 (s * 8) = 8 * s.
Proof. intros Hs. unfold uint8. rewrite Z.mod_small; lia. Qed.

(** X19: the width a load or a store prints is [Size * 8] computed in 8
    bits.  It is eight times the size for a size below 32; sizes 32
    apart print the same text; and with a pointer register in [R] the size
    is not printed at all. *)
Theorem IrLoad_IrStore_String_width (r mem : Reg) (s s' : Z) :
  (Reg_Ptr r = true →
     IrLoad_String ArchRegs ArchRegNames {| IrLoad.R := r; IrLoad.Mem := mem; IrLoad.Size := s |}
     = IrLoad_String ArchRegs ArchRegNames {| IrLoad.R := r; IrLoad.Mem := mem; IrLoad.Size := s' |}
     ∧ IrStore_String ArchRegs ArchRegNames
         {| IrStore.R := r; IrStore.Mem := mem; IrStore.Size := s |}
       = IrStore_String ArchRegs ArchRegNames
           {| IrStore.R := r; IrStore.Mem := mem; IrStore.Size := s' |})
  ∧ (IrLoad_String ArchRegs ArchRegNames
       {| IrLoad.R := r; IrLoad.Mem := mem; IrLoad.Size := s + 32 |}
     = IrLoad_String ArchRegs ArchRegNames {| IrLoad.R := r; IrLoad.Mem := mem; IrLoad.Size := s |}
     ∧ IrStore_String ArchRegs ArchRegNames
         {| IrStore.R := r; IrStore.Mem := mem; IrStore.Size := s + 32 |}
       = IrStore_String ArchRegs ArchRegNames
           {| IrStore.R := r; IrStore.Mem := mem; IrStore.Size := s |})
  ∧ (Reg_Ptr r = false → 0 ≤ s < 32 →
     IrLoad_String ArchRegs ArchRegNames {| IrLoad.R := r; IrLoad.Mem := mem; IrLoad.Size := s |}
     = fmt_reg ArchRegs ArchRegNames r +:+ " = load.u" +:+ fmt_d (8 * s) +:+ " "
         +:+ fmt_reg ArchRegs ArchRegNames mem
     ∧ IrStore_String ArchRegs ArchRegNames
         {| IrStore.R := r; IrStore.Mem := mem; IrStore.Size := s |}
       = "store.u" +:+ fmt_d (8 * s) +:+ "(" +:+ fmt_reg ArchRegs ArchRegNames r +:+ " -> *"
           +:+ fmt_reg ArchRegs ArchRegNames mem +:+ ")").
Proof.
  unfold IrLoad_String, IrStore_String.
  cbn [IrLoad.R IrLoad.Mem IrLoad.Size IrStore.R IrStore.Mem IrStore.Size].
  rewrite !uint8_width_wraps.
  split; [| split].
  - intros ->. by split.
  - by split.
  - intros -> Hs. rewrite uint8_width_exact by done. by split.
Qed.
End NodeProperties.

Example IrCopy_String_pointer :
  IrBinaryExpr_String (@nil unit) (λ _, "") (IrCopy Pr Pn) = "%tp0 = nil + $0".
Proof. by vm_compute. Qed.

Example IrLoad_String_size_32 :
  IrLoad_String (@nil unit) (λ _, "") {| IrLoad.R := Tr; IrLoad.Mem := Pr; IrLoad.Size := 32 |}
  = "%tr0 = load.u0 %tp0".
Proof. by vm_compute. Qed.

Example IrUnaryExpr_String_bad_op :
  IrUnaryExpr_String (@nil unit) (λ _, "")
    {| IrUnaryExpr.R := Tr; IrUnaryExpr.V := Tr; IrUnaryExpr.Op := 9 |}
  = "%tr0 = %!s(PANIC=String method: unreachable) %tr0".
Proof. by vm_compute. Qed.

(** ** The sorter of phi sources *)

Lemma list_swap_back {A} (l : list A) (i j : nat) (a b : A) :
  l !! i = Some a → l !! j = Some b →
  (<[j:=a]> (<[i:=b]> l)) !! j = Some a
  ∧ (<[j:=a]> (<[i:=b]> l)) !! i = Some b
  ∧ <[j:=b]> (<[i:=a]> (<[j:=a]> (<[i:=b]> l))) = l.
Proof.
  intros Hi Hj.
  pose proof (lookup_lt_Some _ _ _ Hi) as Hilen.
  pose proof (lookup_lt_Some _ _ _ Hj) as Hjlen.
  assert ((<[j:=a]> (<[i:=b]> l)) !! j = Some a) as Hj'.
  { apply list_lookup_insert_eq. by rewrite length_insert. }
  assert ((<[j:=a]> (<[i:=b]> l)) !! i = Some b) as Hi'.
  { destruct (decide (i = j)) as [-> | Hne]; [congruence |].
    rewrite list_lookup_insert_ne by done. by apply list_lookup_insert_eq. }
  split; [done |]. split; [done |].
  apply list_eq. intros n.
  destruct (decide (n = j)) as [-> | Hnj].
  { rewrite list_lookup_insert_eq; [congruence |]. by rewrite !length_insert. }
  rewrite list_lookup_insert_ne by done.
  destruct (decide (n = i)) as [-> | Hni].
  { rewrite list_lookup_insert_eq; [congruence |]. by rewrite !length_insert. }
  by rewrite !list_lookup_insert_ne by done.
Qed.

Lemma index_Ok {A} (x : list A) (i : nat) (a : A) : index x i = Ok a ↔ x !! i = Some a.
Proof. unfold index. destruct (x !! i); split; congruence. Qed.

(** X20: [_PhiSorter.Swap] succeeds exactly when both positions lie
    within both slices.  It keeps the two lengths, and swapping the same
    two positions again restores the sorter: no identifier and no register
    is lost or duplicated. *)
Theorem PhiSorter_Swap_involutive (d : _PhiSorter.ty) (i j : nat) :
  ((∃ d', _PhiSorter.Swap d i j = Ok d')
   ↔ (i < length (_PhiSorter.k d) ∧ j < length (_PhiSorter.k d)
      ∧ i < length (_PhiSorter.v d) ∧ j < length (_PhiSorter.v d))%nat)
  ∧ ∀ d', _PhiSorter.Swap d i j = Ok d' →
          length (_PhiSorter.k d') = length (_PhiSorter.k d)
          ∧ length (_PhiSorter.v d') = length (_PhiSorter.v d)
          ∧ _PhiSorter.Swap d' i j = Ok d.
Proof.
  destruct d as [k v]. unfold _PhiSorter.Swap. cbn [_PhiSorter.k _PhiSorter.v].
  split.
  - split.
    + intros [d' Hrun].
      destruct (index k j) as [kj |] eqn:Hkj; [| discriminate Hrun].
      destruct (index k i) as [ki |] eqn:Hki; [| discriminate Hrun].
      destruct (index v j) as [vj |] eqn:Hvj; [| discriminate Hrun].
      destruct (index v i) as [vi |] eqn:Hvi; [| discriminate Hrun].
      apply index_Ok, lookup_lt_Some in Hkj, Hki, Hvj, Hvi. done.
    + intros (Hki & Hkj & Hvi & Hvj).
      apply lookup_lt_is_Some_2 in Hki as [ki Hki], Hkj as [kj Hkj],
        Hvi as [vi Hvi], Hvj as [vj Hvj].
      rewrite (index_lookup _ _ _ Hki), (index_lookup _ _ _ Hkj),
        (index_lookup _ _ _ Hvi), (index_lookup _ _ _ Hvj).
      eexists. reflexivity.
  - intros d' Hrun.
    destruct (index k j) as [kj |] eqn:Hkj; [| discriminate Hrun].
    destruct (index k i) as [ki |] eqn:Hki; [| discriminate Hrun].
    destruct (index v j) as [vj |] eqn:Hvj; [| discriminate Hrun].
    destruct (index v i) as [vi |] eqn:Hvi; [| discriminate Hrun].
    injection Hrun as <-. cbn [_PhiSorter.k _PhiSorter.v].
    apply index_Ok in Hkj, Hki, Hvj, Hvi.
    destruct (list_swap_back k i j ki kj Hki Hkj) as (Hk1 & Hk2 & Hk3).
    destruct (list_swap_back v i j vi vj Hvi Hvj) as (Hv1 & Hv2 & Hv3).
    rewrite !length_insert. split; [done |]. split; [done |].
    rewrite (index_lookup _ _ _ Hk1), (index_lookup _ _ _ Hk2),
      (index_lookup _ _ _ Hv1), (index_lookup _ _ _ Hv2).
    cbn [mbind result_bind]. by rewrite Hk3, Hv3.
Qed.

Example PhiSorter_Swap_out_of_range :
  _PhiSorter.Swap {| _PhiSorter.k := [3; 1]; _PhiSorter.v := [VarRef 1%positive; VarRef 2%positive] |}
    0 2
  = Panic "runtime error: index out of range [2] with length 2".
Proof. by vm_compute. Qed.

(** ** Runtime type descriptors *)

Definition F_kind_mask : Z := Z.shiftl 1 5 - 1.

(** The descriptor of a Go type as the runtime lays it out; pointers are
    addresses. *)
Record GoType : Type := {
  GoType_Size : Z;
  PtrData : Z;
  Hash : Z;
  Flags : Z;
  Align : Z;
  FieldAlign : Z;
  KindFlags : Z;
  Traits : Z;
  GCData : Z;
  Str : Z;
  PtrToSelf : Z;
}.

Definition GoType_Kind (self : GoType) : Z :=
  Z.land (KindFlags self) F_kind_mask.

(** X22: the kind of a type descriptor is the low five bits of
    [KindFlags]: a number from 0 to 31 that the flag bits above them never
    change. *)
Theorem GoType_Kind_low_bits (self : GoType) (flags : Z) :
  0 ≤ GoType_Kind self ≤ 31
  ∧ GoType_Kind self = KindFlags self mod 32
  ∧ GoType_Kind
      {| GoType_Size := GoType_Size self; PtrData := PtrData self; Hash := Hash self;
         Flags := Flags self; Align := Align self; FieldAlign := FieldAlign self;
         KindFlags := uint8 (KindFlags self + 32 * flags);
         Traits := Traits self; GCData := GCData self; Str := Str self;
         PtrToSelf := PtrToSelf self |}
    = GoType_Kind self.
Proof.
  unfold GoType_Kind. cbn [KindFlags].
  assert (∀ z, Z.land z F_kind_mask = z mod 32) as Hmask.
  { intros z. change F_kind_mask with (Z.ones 5). by rewrite Z.land_ones. }
  rewrite !Hmask. split; [| split; [done |]].
  - pose proof (Z.mod_pos_bound (KindFlags self) 32). lia.
  - unfold uint8. change (2 ^ 8) with (32 * 8).
    rewrite Z.mod_mod_divide by (by exists 8).
    rewrite (Z.mul_comm 32 flags). apply Z.mod_add. done.
Qed.

(** ** The properties above at concrete nodes *)

(** An architecture-specific register with an empty register table. *)
Lemma Reg_String_panics_iff_witness :
  Reg_String (@nil unit) (λ _, "") (reg_bits 0 _K_arch)
  = Panic ("invalid arch-specific register index: " +:+ fmt_d (Reg_Index (reg_bits 0 _K_arch))).
Proof.
  apply (proj2 (Reg_String_panics_iff (@nil unit) (λ _, "") (reg_bits 0 _K_arch))).
  vm_compute. exact I.
Defined.

(** A return of the temporary register and the nil pointer. *)
Lemma IrReturn_String_panics_iff_witness :
  IrReturn.String (@nil unit) (λ _, "") {| IrReturn.R := [Tr; Pn] |}
  = Ok ("ret {" +:+ strings_Join ["%tr0"; "nil"] ", " +:+ "}").
Proof.
  apply (proj1 (proj2 (IrReturn_String_panics_iff (@nil unit) (λ _, "")
                         {| IrReturn.R := [Tr; Pn] |})) ["%tr0"; "nil"]).
  constructor; [by vm_compute |].
  constructor; [by vm_compute |].
  constructor.
Defined.

Lemma IrBinaryOp_String_injective_witness : IrOpShr = IrOpShr.
Proof. apply (proj2 (IrBinaryOp_String_injective IrOpShr IrOpShr)). reflexivity. Defined.

Lemma IrUnaryOp_String_panics_iff_witness : IrUnaryOp_String 9 = Panic "unreachable".
Proof.
  apply (proj1 (proj2 (IrUnaryOp_String_panics_iff 9 9))). vm_compute. exact I.
Defined.

(** A four-byte load and store through the temporary register. *)
Lemma IrLoad_IrStore_String_width_witness :
  IrLoad_String (@nil unit) (λ _, "") {| IrLoad.R := Tr; IrLoad.Mem := Pr; IrLoad.Size := 4 |}
  = fmt_reg (@nil unit) (λ _, "") Tr +:+ " = load.u" +:+ fmt_d (8 * 4) +:+ " "
      +:+ fmt_reg (@nil unit) (λ _, "") Pr
  ∧ IrStore_String (@nil unit) (λ _, "")
      {| IrStore.R := Tr; IrStore.Mem := Pr; IrStore.Size := 4 |}
    = "store.u" +:+ fmt_d (8 * 4) +:+ "(" +:+ fmt_reg (@nil unit) (λ _, "") Tr +:+ " -> *"
        +:+ fmt_reg (@nil unit) (λ _, "") Pr +:+ ")".
Proof.
  apply (proj2 (proj2 (IrLoad_IrStore_String_width (@nil unit) (λ _, "") Tr Pr 4 4))).
  - reflexivity.
  - lia.
Defined.

(** Two sources exchanged and exchanged back. *)
Lemma PhiSorter_Swap_involutive_witness :
  length [1; 3] = length [3; 1]
  ∧ length [VarRef 2%positive; VarRef 1%positive] = length [VarRef 1%positive; VarRef 2%positive]
  ∧ _PhiSorter.Swap
      {| _PhiSorter.k := [1; 3]; _PhiSorter.v := [VarRef 2%positive; VarRef 1%positive] |} 0 1
    = Ok {| _PhiSorter.k := [3; 1]; _PhiSorter.v := [VarRef 1%positive; VarRef 2%positive] |}.
Proof.
  apply (proj2 (PhiSorter_Swap_involutive
                  {| _PhiSorter.k := [3; 1];
                     _PhiSorter.v := [VarRef 1%positive; VarRef 2%positive] |} 0 1)
           {| _PhiSorter.k := [1; 3]; _PhiSorter.v := [VarRef 2%positive; VarRef 1%positive] |}).
  reflexivity.
Defined.
